(** * CanvasLib: the [Canvas] wrapper class and its drawing methods

    A shallow embedding of the [Canvas] class of CanvasLib.  The class
    exists in two source files that agree on every method except three:

    - [Canvas.js] composes the font string with the family in double
      quotes, and its [clear] only fills;
    - the module variant ([export default class Canvas], private [#]
      fields) leaves the family unquoted, adds [setSize] and
      [drawPolygon], and its [clear] wipes the surface before filling.

    A value of type [variant] selects the file wherever the two differ.

    Numbers are rationals ([Q]): the exact-arithmetic reading of the
    doubles of the source ([x + 0.5] is [Qplus x 0.5]).  The 2D context
    is an object of the host, not of this repository; it is modelled as
    the properties the class assigns ([fillStyle], [strokeStyle], [font],
    ...) together with the ordered record of the methods invoked on it.
    A painting method is recorded with the style it paints with, which
    is the value of [fillStyle] or [strokeStyle] at the time of the call.
    The recording context accepts every call; what a browser does with
    arguments outside the domain of a primitive is not part of it. *)

From Stdlib Require Import QArith NArith String List Bool Arith Lia.
Import ListNotations.

Open Scope string_scope.
Open Scope Q_scope.
Open Scope list_scope.

(** ** Values that cross the interface *)

(** [@param {string | CanvasGradient | CanvasPattern} color].  Gradients
    and patterns are host objects, known here by identity only. *)
Inductive color : Type :=
| ColorString (s : string)
| CanvasGradient (id : nat)
| CanvasPattern (id : nat).

(** An argument handed to [moveTo]/[lineTo]: a number, or [undefined]
    when it was read past the end of an array. *)
Inductive arg : Type :=
| Num (q : Q)
| Undefined.

Coercion Num : Q >-> arg.

(** [Math.PI] is the double nearest to pi; its exact value is
    884279719003555 / 2^48. *)
Definition Math_PI : Q := 884279719003555 # 281474976710656.

(** The one-character string holding a double quote. *)
Definition dquote : string := String (Ascii.ascii_of_nat 34) EmptyString.

(** The source file a definition is read from. *)
Inductive variant : Type :=
| CanvasJs
| Part000.

(** ** The 2D context *)

(** One entry of the record of calls on the context. *)
Inductive op : Type :=
| BeginPath
| MoveTo (x y : arg)
| LineTo (x y : arg)
| Arc (x y radius startAngle endAngle : Q)
| ClosePath
| Fill (style : color)
| Stroke (style : color)
| FillRect (x y w h : Q) (style : color)
| StrokeRect (x y w h : Q) (style : color)
| ClearRect (x y w h : Q)
| FillText (text : string) (x y : Q) (style : color)
| StrokeText (text : string) (x y : Q) (style : color).

Record context : Type := mkContext {
  fillStyle : color;
  strokeStyle : color;
  font : string;
  textAlign : string;
  textBaseline : string;
  lineWidth : Q;
  calls : list op
}.

(** A fresh context, as [getContext('2d')] hands it out. *)
Definition getContext2d : context :=
  {| fillStyle := ColorString "#000000";
     strokeStyle := ColorString "#000000";
     font := "10px sans-serif";
     textAlign := "start";
     textBaseline := "alphabetic";
     lineWidth := 1;
     calls := [] |}.

Module Ctx.

Definition set_fillStyle (v : color) (c : context) : context :=
  mkContext v (strokeStyle c) (font c) (textAlign c) (textBaseline c)
            (lineWidth c) (calls c).

Definition set_strokeStyle (v : color) (c : context) : context :=
  mkContext (fillStyle c) v (font c) (textAlign c) (textBaseline c)
            (lineWidth c) (calls c).

Definition set_font (v : string) (c : context) : context :=
  mkContext (fillStyle c) (strokeStyle c) v (textAlign c) (textBaseline c)
            (lineWidth c) (calls c).

Definition set_textAlign (v : string) (c : context) : context :=
  mkContext (fillStyle c) (strokeStyle c) (font c) v (textBaseline c)
            (lineWidth c) (calls c).

Definition set_textBaseline (v : string) (c : context) : context :=
  mkContext (fillStyle c) (strokeStyle c) (font c) (textAlign c) v
            (lineWidth c) (calls c).

Definition set_lineWidth (v : Q) (c : context) : context :=
  mkContext (fillStyle c) (strokeStyle c) (font c) (textAlign c)
            (textBaseline c) v (calls c).

(** Append one entry to the record of calls. *)
Definition log (o : op) (c : context) : context :=
  mkContext (fillStyle c) (strokeStyle c) (font c) (textAlign c)
            (textBaseline c) (lineWidth c) (calls c ++ [o]).

Definition beginPath : context -> context := log BeginPath.
Definition moveTo (x y : arg) : context -> context := log (MoveTo x y).
Definition lineTo (x y : arg) : context -> context := log (LineTo x y).
Definition arc (x y r a0 a1 : Q) : context -> context :=
  log (Arc x y r a0 a1).
Definition closePath : context -> context := log ClosePath.
Definition fill (c : context) : context := log (Fill (fillStyle c)) c.
Definition stroke (c : context) : context := log (Stroke (strokeStyle c)) c.
Definition fillRect (x y w h : Q) (c : context) : context :=
  log (FillRect x y w h (fillStyle c)) c.
Definition strokeRect (x y w h : Q) (c : context) : context :=
  log (StrokeRect x y w h (strokeStyle c)) c.
Definition clearRect (x y w h : Q) : context -> context :=
  log (ClearRect x y w h).
Definition fillText (text : string) (x y : Q) (c : context) : context :=
  log (FillText text x y (fillStyle c)) c.
Definition strokeText (text : string) (x y : Q) (c : context) : context :=
  log (StrokeText text x y (strokeStyle c)) c.

End Ctx.

(** ** The wrapper object *)

(** The canvas element, as far as the class reads it. *)
Record element : Type := mkElement {
  width : N;
  height : N
}.

Record canvas : Type := mkCanvas {
  canvas_element : element;
  canvas_context : context;
  usePositionFix : bool;
  fontDecorations : list string;
  fontSize : string;
  fontFamily : string
}.

(** The part of the wrapper outside the context: the flag, the three
    font fields and the size of the surface. *)
Definition presentation (c : canvas)
  : bool * string * string * list string * N * N :=
  (usePositionFix c, fontFamily c, fontSize c, fontDecorations c,
   width (canvas_element c), height (canvas_element c)).

(** Run a sequence of context calls on the context of the wrapper. *)
Definition on_context (f : context -> context) (c : canvas) : canvas :=
  mkCanvas (canvas_element c) (f (canvas_context c)) (usePositionFix c)
           (fontDecorations c) (fontSize c) (fontFamily c).

Definition set_fontDecorations (v : list string) (c : canvas) : canvas :=
  mkCanvas (canvas_element c) (canvas_context c) (usePositionFix c)
           v (fontSize c) (fontFamily c).

Definition set_fontSize (v : string) (c : canvas) : canvas :=
  mkCanvas (canvas_element c) (canvas_context c) (usePositionFix c)
           (fontDecorations c) v (fontFamily c).

Definition set_fontFamily (v : string) (c : canvas) : canvas :=
  mkCanvas (canvas_element c) (canvas_context c) (usePositionFix c)
           (fontDecorations c) (fontSize c) v.

(** Surface dimensions as numbers handed to the context. *)
Definition px (n : N) : Q := inject_Z (Z.of_N n).

(** [constructor(width, height, options = {})]; [options] is given by its
    [usePositionFix] member, [None] when absent or [null]. *)
Definition constructor (w h : N) (options_usePositionFix : option bool)
  : canvas :=
  {| canvas_element := mkElement w h;
     canvas_context :=
       Ctx.set_textBaseline "top" (Ctx.set_textAlign "left" getContext2d);
     usePositionFix :=
       match options_usePositionFix with
       | Some b => b
       | None => true
       end;
     fontDecorations := [];
     fontSize := "10px";
     fontFamily := "sans-serif" |}.

Definition getContext (c : canvas) : context := canvas_context c.
Definition getWidth (c : canvas) : N := width (canvas_element c).
Definition getHeight (c : canvas) : N := height (canvas_element c).

(** ** Font state *)

Section Font.

(** Conversion of a number to text inside a template literal. *)
Variable Number_toString : Q -> string.

(** [_refreshFont] / [#refreshFont]. *)
Definition refreshFont (v : variant) (c : canvas) : canvas :=
  on_context
    (Ctx.set_font
       (String.concat " " (fontDecorations c) ++ " " ++ fontSize c ++ " " ++
        match v with
        | CanvasJs => dquote ++ fontFamily c ++ dquote
        | Part000 => fontFamily c
        end)%string)
    c.

Definition setFontSize (v : variant) (size : Q) (c : canvas) : canvas :=
  refreshFont v (set_fontSize (Number_toString size ++ "px") c).

Definition setFontFamily (v : variant) (family : string) (c : canvas)
  : canvas :=
  refreshFont v (set_fontFamily family c).

(** [decorations = []]: [None] is the omitted argument. *)
Definition setFontDecorations (v : variant)
           (decorations : option (list string)) (c : canvas) : canvas :=
  refreshFont v
    (set_fontDecorations
       (match decorations with Some d => d | None => [] end) c).

(** [setFont(fontFamily = null, size = null, decorations = null)]. *)
Definition setFont (v : variant) (family : option string)
           (size : option Q) (decorations : option (list string))
           (c : canvas) : canvas :=
  let c1 := match family with
            | Some f => set_fontFamily f c
            | None => c
            end in
  let c2 := match size with
            | Some n => set_fontSize (Number_toString n ++ "px") c1
            | None => c1
            end in
  let c3 := match decorations with
            | Some d => set_fontDecorations d c2
            | None => c2
            end in
  refreshFont v c3.

(** A call of one of the four font methods. *)
Inductive font_call : Type :=
| SetFontSize (size : Q)
| SetFontFamily (family : string)
| SetFontDecorations (decorations : option (list string))
| SetFont (family : option string) (size : option Q)
          (decorations : option (list string)).

Definition font_invoke (v : variant) (k : font_call) : canvas -> canvas :=
  match k with
  | SetFontSize n => setFontSize v n
  | SetFontFamily f => setFontFamily v f
  | SetFontDecorations d => setFontDecorations v d
  | SetFont f n d => setFont v f n d
  end.

Definition font_run (v : variant) (ks : list font_call) (c : canvas)
  : canvas :=
  fold_left (fun acc k => font_invoke v k acc) ks c.

End Font.

(** ** Text layout and line width *)

Definition setTextAlign (align : string) : canvas -> canvas :=
  on_context (Ctx.set_textAlign align).

Definition setTextBaseline (baseline : string) : canvas -> canvas :=
  on_context (Ctx.set_textBaseline baseline).

Definition setLineWidth (w : Q) : canvas -> canvas :=
  on_context (Ctx.set_lineWidth w).

(** ** Drawing *)

(** [if(color !== null)this._context.fillStyle = color;] *)
Definition fill_color (color : option color) (cx : context) : context :=
  match color with
  | Some col => Ctx.set_fillStyle col cx
  | None => cx
  end.

(** [if(color !== null)this._context.strokeStyle = color;] *)
Definition stroke_color (color : option color) (cx : context) : context :=
  match color with
  | Some col => Ctx.set_strokeStyle col cx
  | None => cx
  end.

(** [if(this._usePositionFix){ x += 0.5; ... }] on one coordinate. *)
Definition positionFix (c : canvas) (x : Q) : Q :=
  if usePositionFix c then x + 0.5 else x.

Definition drawLine (x1 y1 x2 y2 : Q) (color : option color) (c : canvas)
  : canvas :=
  let x1 := positionFix c x1 in
  let y1 := positionFix c y1 in
  let x2 := positionFix c x2 in
  let y2 := positionFix c y2 in
  on_context
    (fun cx =>
       let cx := stroke_color color cx in
       let cx := Ctx.beginPath cx in
       let cx := Ctx.moveTo x1 y1 cx in
       let cx := Ctx.lineTo x2 y2 cx in
       Ctx.stroke cx)
    c.

Definition drawRect (x y w h : Q) (color : option color) (isFill : bool)
           (c : canvas) : canvas :=
  if isFill then
    on_context
      (fun cx =>
         let cx := fill_color color cx in
         Ctx.fillRect x y w h cx)
      c
  else
    let x := positionFix c x in
    let y := positionFix c y in
    on_context
      (fun cx =>
         let cx := stroke_color color cx in
         Ctx.strokeRect x y w h cx)
      c.

(** The four arcs are issued from the arguments as passed; the
    assignments [x += 0.5; y += 0.5] of the stroke branch come after them
    and bind values that nothing reads. *)
Definition drawRoundedRect (x y w h r : Q) (color : option color)
           (isFill : bool) (c : canvas) : canvas :=
  let c :=
    on_context
      (fun cx =>
         let cx := Ctx.beginPath cx in
         let cx := Ctx.arc (x + r) (y + r) r Math_PI (Math_PI * 1.5) cx in
         let cx := Ctx.arc (x + w - r) (y + r) r (Math_PI * 1.5) 0 cx in
         let cx := Ctx.arc (x + w - r) (y + h - r) r 0 (Math_PI * 0.5) cx in
         let cx := Ctx.arc (x + r) (y + h - r) r (Math_PI * 0.5) Math_PI cx in
         Ctx.closePath cx)
      c in
  if isFill then
    on_context
      (fun cx =>
         let cx := fill_color color cx in
         Ctx.fill cx)
      c
  else
    let x := positionFix c x in
    let y := positionFix c y in
    on_context
      (fun cx =>
         let cx := stroke_color color cx in
         Ctx.stroke cx)
      c.

Definition drawCircle (x y r : Q) (color : option color) (isFill : bool)
           (c : canvas) : canvas :=
  on_context
    (fun cx =>
       let cx := Ctx.beginPath cx in
       let cx := Ctx.arc x y r 0 (Math_PI * 2) cx in
       let cx := Ctx.closePath cx in
       if isFill then
         let cx := fill_color color cx in
         Ctx.fill cx
       else
         let cx := stroke_color color cx in
         Ctx.stroke cx)
    c.

(** [vertexes[i]]: reading past the end of an array gives [undefined]. *)
Definition index (vertexes : list Q) (i : nat) : arg :=
  match nth_error vertexes i with
  | Some q => Num q
  | None => Undefined
  end.

(** [for(let i = 2; i < vertexes.length; i += 2) moveTo(...)], entered
    at [i]; [fuel] bounds the number of iterations. *)
Fixpoint polygon_loop (fuel i : nat) (vertexes : list Q) (cx : context)
  : context :=
  match fuel with
  | O => cx
  | S fuel' =>
      if (i <? length vertexes)%nat then
        polygon_loop fuel' (i + 2) vertexes
          (Ctx.moveTo (index vertexes i) (index vertexes (i + 1)) cx)
      else cx
  end.

(** [drawPolygon] (module variant only).  [vertexes] is [None] for
    [null] or [undefined]; the guard returns before [vertexes.length] is
    read of it.  The loop gets [vertexes.length] iterations of fuel, more
    than it uses. *)
Definition drawPolygon (vertexes : option (list Q)) (color : option color)
           (isFill : bool) (c : canvas) : canvas :=
  match vertexes with
  | None => c
  | Some vs =>
      if (length vs <? 2)%nat then c
      else
        on_context
          (fun cx =>
             let cx := Ctx.beginPath cx in
             let cx := Ctx.lineTo (index vs 0) (index vs 1) cx in
             let cx := polygon_loop (length vs) 2 vs cx in
             let cx := Ctx.closePath cx in
             if isFill then
               let cx := fill_color color cx in
               Ctx.fill cx
             else
               let cx := stroke_color color cx in
               Ctx.stroke cx)
          c
  end.

Definition drawText (x y : Q) (text : string) (color : option color)
           (isFill : bool) (c : canvas) : canvas :=
  let x := positionFix c x in
  let y := positionFix c y in
  on_context
    (fun cx =>
       if isFill then
         let cx := fill_color color cx in
         Ctx.fillText text x y cx
       else
         let cx := stroke_color color cx in
         Ctx.strokeText text x y cx)
    c.

Definition drawFill (color : option color) : canvas -> canvas :=
  on_context
    (fun cx =>
       let cx := fill_color color cx in
       Ctx.fill cx).

Definition drawStroke (color : option color) : canvas -> canvas :=
  on_context
    (fun cx =>
       let cx := stroke_color color cx in
       Ctx.stroke cx).

(** [color !== 'clear']: only the string [clear] is equal to it. *)
Definition is_clear_literal (col : color) : bool :=
  match col with
  | ColorString s => String.eqb s "clear"
  | _ => false
  end.

Definition clear (v : variant) (color : option color) (c : canvas)
  : canvas :=
  let w := px (width (canvas_element c)) in
  let h := px (height (canvas_element c)) in
  match v with
  | CanvasJs =>
      on_context
        (fun cx =>
           let cx := fill_color color cx in
           Ctx.fillRect 0 0 w h cx)
        c
  | Part000 =>
      on_context
        (fun cx =>
           let cx := Ctx.clearRect 0 0 w h cx in
           match color with
           | Some col =>
               if is_clear_literal col then cx
               else
                 let cx := Ctx.set_fillStyle col cx in
                 Ctx.fillRect 0 0 w h cx
           | None => cx
           end)
        c
  end.

(** ** Calls of the drawing methods as data *)

(** One call of a drawing method with its arguments.  [DrawPolygon]
    exists in the module variant only; [invoke] runs it whatever the
    variant, so what is proved of it speaks of that file. *)
Inductive draw_call : Type :=
| DrawLine (x1 y1 x2 y2 : Q) (color : option color)
| DrawRect (x y w h : Q) (color : option color) (isFill : bool)
| DrawRoundedRect (x y w h r : Q) (color : option color) (isFill : bool)
| DrawCircle (x y r : Q) (color : option color) (isFill : bool)
| DrawPolygon (vertexes : option (list Q)) (color : option color)
              (isFill : bool)
| DrawText (x y : Q) (text : string) (color : option color) (isFill : bool)
| DrawFill (color : option color)
| DrawStroke (color : option color)
| Clear (color : option color).

Definition invoke (v : variant) (d : draw_call) : canvas -> canvas :=
  match d with
  | DrawLine x1 y1 x2 y2 color => drawLine x1 y1 x2 y2 color
  | DrawRect x y w h color isFill => drawRect x y w h color isFill
  | DrawRoundedRect x y w h r color isFill =>
      drawRoundedRect x y w h r color isFill
  | DrawCircle x y r color isFill => drawCircle x y r color isFill
  | DrawPolygon vertexes color isFill => drawPolygon vertexes color isFill
  | DrawText x y text color isFill => drawText x y text color isFill
  | DrawFill color => drawFill color
  | DrawStroke color => drawStroke color
  | Clear color => clear v color
  end.

(** The [color] argument of a call. *)
Definition call_color (d : draw_call) : option color :=
  match d with
  | DrawLine _ _ _ _ color
  | DrawRect _ _ _ _ color _
  | DrawRoundedRect _ _ _ _ _ color _
  | DrawCircle _ _ _ color _
  | DrawPolygon _ color _
  | DrawText _ _ _ color _
  | DrawFill color
  | DrawStroke color
  | Clear color => color
  end.

(** The two ways of painting. *)
Inductive paint : Type :=
| Filling
| Stroking.

Definition paint_of_flag (isFill : bool) : paint :=
  if isFill then Filling else Stroking.

(** Whether a call paints by filling or by stroking. *)
Definition call_paint (d : draw_call) : paint :=
  match d with
  | DrawLine _ _ _ _ _ => Stroking
  | DrawRect _ _ _ _ _ isFill
  | DrawRoundedRect _ _ _ _ _ _ isFill
  | DrawCircle _ _ _ _ isFill
  | DrawPolygon _ _ isFill
  | DrawText _ _ _ _ isFill => paint_of_flag isFill
  | DrawFill _ => Filling
  | DrawStroke _ => Stroking
  | Clear _ => Filling
  end.

(** [drawPolygon] calls that its guard turns away. *)
Definition turned_away (d : draw_call) : bool :=
  match d with
  | DrawPolygon None _ _ => true
  | DrawPolygon (Some vs) _ _ => (length vs <? 2)%nat
  | _ => false
  end.

Definition is_clear_call (d : draw_call) : bool :=
  match d with
  | Clear _ => true
  | _ => false
  end.

(** The style of the context that a way of painting reads. *)
Definition style_of (p : paint) (cx : context) : color :=
  match p with
  | Filling => fillStyle cx
  | Stroking => strokeStyle cx
  end.

(** ** Reading the record of calls *)

(** The style a call paints with: its colour, or the one in place. *)
Definition effective (current : color) (given : option color) : color :=
  match given with
  | Some col => col
  | None => current
  end.

(** The calls made on the context between two states of the wrapper. *)
Definition issued (before after : canvas) : list op :=
  skipn (length (calls (canvas_context before)))
        (calls (canvas_context after)).

(** A context after the calls [l] have been added to its record. *)
Definition log_all (l : list op) (cx : context) : context :=
  mkContext (fillStyle cx) (strokeStyle cx) (font cx) (textAlign cx)
            (textBaseline cx) (lineWidth cx) (calls cx ++ l).

(** What a recorded call painted: how, and with which style. *)
Definition op_paint (o : op) : option (paint * color) :=
  match o with
  | Fill s | FillRect _ _ _ _ s | FillText _ _ _ s => Some (Filling, s)
  | Stroke s | StrokeRect _ _ _ _ s | StrokeText _ _ _ s =>
      Some (Stroking, s)
  | _ => None
  end.

Fixpoint painted (l : list op) : list (paint * color) :=
  match l with
  | [] => []
  | o :: l' =>
      match op_paint o with
      | Some ps => ps :: painted l'
      | None => painted l'
      end
  end.

(** The [moveTo] calls of the loop of [drawPolygon] over the coordinates
    that follow the first point. *)
Fixpoint moveTos (rest : list Q) : list op :=
  match rest with
  | [] => []
  | [x] => [MoveTo (Num x) Undefined]
  | x :: y :: rest' => MoveTo (Num x) (Num y) :: moveTos rest'
  end.

(** A vertex list laid out from points, as [drawPolygon] expects it. *)
Definition flatten (pts : list (Q * Q)) : list Q :=
  flat_map (fun pt => [fst pt; snd pt]) pts.

(** The positions that a record of calls hands to [moveTo] and
    [lineTo], in order. *)
Fixpoint positions (l : list op) : list (arg * arg) :=
  match l with
  | [] => []
  | MoveTo x y :: l' => (x, y) :: positions l'
  | LineTo x y :: l' => (x, y) :: positions l'
  | _ :: l' => positions l'
  end.

(** The calls that assign the fill colour: those that pass a colour in
    fill mode and are not turned away; [clear] in the module variant does
    not when the colour is the string [clear]. *)
Definition sets_fillStyle (v : variant) (d : draw_call) : bool :=
  match call_color d, call_paint d with
  | Some col, Filling =>
      if turned_away d then false
      else
        match d, v with
        | Clear _, Part000 => negb (is_clear_literal col)
        | _, _ => true
        end
  | _, _ => false
  end.

(** A sequence of drawing calls, run in order. *)
Definition draw_run (v : variant) (ds : list draw_call) (c : canvas)
  : canvas :=
  fold_left (fun acc d => invoke v d acc) ds c.

(** The four arcs and the [closePath] of a rounded rectangle whose
    origin is [(x, y)]. *)
Definition rounded_rect_path (x y w h r : Q) : list op :=
  [ BeginPath;
    Arc (x + r) (y + r) r Math_PI (Math_PI * 1.5);
    Arc (x + w - r) (y + r) r (Math_PI * 1.5) 0;
    Arc (x + w - r) (y + h - r) r 0 (Math_PI * 0.5);
    Arc (x + r) (y + h - r) r (Math_PI * 0.5) Math_PI;
    ClosePath ].

(** ** The path a record of calls builds

    The current default path of a 2D context: a list of subpaths, each a
    first point followed by segments.  The rules are those of the canvas
    interface: [moveTo] opens a subpath; [lineTo] extends the current one
    by a straight line, or opens one when there is none; [arc] joins the
    current point to the start of the arc by a straight line and adds the
    arc; [closePath] closes the current subpath and opens a new one at
    its first point; a [moveTo] or [lineTo] with an argument that is not
    a number is ignored; a negative radius is an error. *)

Definition point : Type := (Q * Q)%type.

(** Equality of points as rational numbers. *)
Definition pt_eq (p q : point) : Prop :=
  fst p == fst q /\ snd p == snd q.

Inductive segment : Type :=
| LineSeg (to : point)
| ArcSeg (centre : point) (radius startAngle endAngle : Q) (to : point).

Record subpath : Type := mkSubpath {
  sp_first : point;
  sp_segments : list segment;
  sp_closed : bool
}.

Definition open_at (p : point) : subpath := mkSubpath p [] false.

Definition extend (segs : list segment) (sp : subpath) : subpath :=
  mkSubpath (sp_first sp) (sp_segments sp ++ segs) (sp_closed sp).

Definition close (sp : subpath) : subpath :=
  mkSubpath (sp_first sp) (sp_segments sp) true.

Section Path.

(** The trigonometry of the host. *)
Variables cos sin : Q -> Q.

Definition arc_point (x y r a : Q) : point :=
  (x + r * cos a, y + r * sin a).

(** One call applied to a path held newest subpath first; [None] is
    the error of a negative radius. *)
Definition path_step (p : list subpath) (o : op) : option (list subpath) :=
  match o with
  | BeginPath => Some []
  | MoveTo (Num x) (Num y) => Some (open_at (x, y) :: p)
  | LineTo (Num x) (Num y) =>
      match p with
      | [] => Some [open_at (x, y)]
      | sp :: older => Some (extend [LineSeg (x, y)] sp :: older)
      end
  | Arc x y r a0 a1 =>
      if Qle_bool 0 r then
        let first := arc_point x y r a0 in
        let last := arc_point x y r a1 in
        match p with
        | [] => Some [mkSubpath first [ArcSeg (x, y) r a0 a1 last] false]
        | sp :: older =>
            Some (extend [LineSeg first; ArcSeg (x, y) r a0 a1 last] sp
                    :: older)
        end
      else None
  | ClosePath =>
      match p with
      | [] => Some []
      | sp :: older => Some (open_at (sp_first sp) :: close sp :: older)
      end
  | _ => Some p
  end.

Fixpoint path_run (p : list subpath) (l : list op)
  : option (list subpath) :=
  match l with
  | [] => Some p
  | o :: l' =>
      match path_step p o with
      | Some p' => path_run p' l'
      | None => None
      end
  end.

End Path.

(** A path none of whose subpaths has a segment: isolated points. *)
Definition no_segment (p : list subpath) : Prop :=
  Forall (fun sp => sp_segments sp = []) p.

Definition is_MoveTo (o : op) : Prop :=
  match o with
  | MoveTo _ _ => True
  | _ => False
  end.

(** The other way of painting. *)
Definition other (p : paint) : paint :=
  match p with
  | Filling => Stroking
  | Stroking => Filling
  end.

(** ** The outline of a rectangle

    Written from the specification: the rectangle with corners [(x, y)],
    [(x + w, y)], [(x + w, y + h)] and [(x, y + h)], each corner an arc of
    radius 0 that starts and ends at the corner, the corners joined by
    straight edges and the outline closed. *)
Definition rectangle_outline (x y w h : Q) : subpath :=
  let A := (x, y) in
  let B := (x + w, y) in
  let C := (x + w, y + h) in
  let D := (x, y + h) in
  {| sp_first := A;
     sp_segments :=
       [ ArcSeg A 0 Math_PI (Math_PI * 1.5) A;
         LineSeg B; ArcSeg B 0 (Math_PI * 1.5) 0 B;
         LineSeg C; ArcSeg C 0 0 (Math_PI * 0.5) C;
         LineSeg D; ArcSeg D 0 (Math_PI * 0.5) Math_PI D ];
     sp_closed := true |}.

(** Two segments, or subpaths, that are the same up to equality of
    rational numbers. *)
Definition segment_equiv (s t : segment) : Prop :=
  match s, t with
  | LineSeg p, LineSeg q => pt_eq p q
  | ArcSeg c r a0 a1 p, ArcSeg c' r' a0' a1' p' =>
      pt_eq c c' /\ r == r' /\ a0 == a0' /\ a1 == a1' /\ pt_eq p p'
  | _, _ => False
  end.

Definition subpath_equiv (sp sp' : subpath) : Prop :=
  pt_eq (sp_first sp) (sp_first sp') /\
  Forall2 segment_equiv (sp_segments sp) (sp_segments sp') /\
  sp_closed sp = sp_closed sp'.

(** ** The most recently set value of each font field

    Written from the specification: each field is followed on its own
    through the sequence of calls. *)

Section Latest.

Variable Number_toString : Q -> string.

Definition sets_family (k : font_call) : option string :=
  match k with
  | SetFontFamily f => Some f
  | SetFont (Some f) _ _ => Some f
  | _ => None
  end.

Definition sets_size (k : font_call) : option string :=
  match k with
  | SetFontSize n => Some (Number_toString n ++ "px")%string
  | SetFont _ (Some n) _ => Some (Number_toString n ++ "px")%string
  | _ => None
  end.

Definition sets_decorations (k : font_call) : option (list string) :=
  match k with
  | SetFontDecorations (Some d) => Some d
  | SetFontDecorations None => Some []
  | SetFont _ _ (Some d) => Some d
  | _ => None
  end.

(** The value set by the last call of [ks] that sets the field read by
    [sets], or [initial] when none does. *)
Fixpoint latest {A : Type} (sets : font_call -> option A)
         (ks : list font_call) (initial : A) : A :=
  match ks with
  | [] => initial
  | k :: ks' =>
      latest sets ks' (match sets k with Some a => a | None => initial end)
  end.

(** The font string of the specification. *)
Definition composed_font (v : variant) (decorations : list string)
           (size family : string) : string :=
  (String.concat " " decorations ++ " " ++ size ++ " " ++
   match v with
   | CanvasJs => dquote ++ family ++ dquote
   | Part000 => family
   end)%string.

End Latest.

(** ** The remaining methods *)

Definition getElement (c : canvas) : element := canvas_element c.

Section Resize.

(** What the host does to the context when the element has been given
    new dimensions; the class does not say, and nothing here depends on
    it. *)
Variable host_resize : element -> context -> context.

(** [setSize(width, height)] (module variant only): the two dimensions
    are assigned one after the other. *)
Definition setSize (w h : N) (c : canvas) : canvas :=
  let e1 := mkElement w (height (canvas_element c)) in
  let cx1 := host_resize e1 (canvas_context c) in
  let e2 := mkElement (width e1) h in
  let cx2 := host_resize e2 cx1 in
  mkCanvas e2 cx2 (usePositionFix c) (fontDecorations c) (fontSize c)
           (fontFamily c).

End Resize.

(** ** Calls of any method as data *)

Inductive method : Type :=
| Draw (d : draw_call)
| Font (k : font_call)
| SetTextAlign (align : string)
| SetTextBaseline (baseline : string)
| SetLineWidth (w : Q)
| SetSize (w h : N).

Section Methods.

Variable Number_toString : Q -> string.
Variable host_resize : element -> context -> context.

Definition method_invoke (v : variant) (m : method) : canvas -> canvas :=
  match m with
  | Draw d => invoke v d
  | Font k => font_invoke Number_toString v k
  | SetTextAlign align => setTextAlign align
  | SetTextBaseline baseline => setTextBaseline baseline
  | SetLineWidth w => setLineWidth w
  | SetSize w h => setSize host_resize w h
  end.

Definition method_run (v : variant) (ms : list method) (c : canvas)
  : canvas :=
  fold_left (fun acc m => method_invoke v m acc) ms c.

End Methods.

(** The methods that assign the alignment, the baseline or the line
    width, and the resize, after which the host may have reset them. *)
Definition touches_layout (m : method) : bool :=
  match m with
  | SetTextAlign _ | SetTextBaseline _ | SetLineWidth _ | SetSize _ _ => true
  | _ => false
  end.

(** The methods after which the font of the context may differ: the font
    methods and the resize. *)
Definition touches_font (m : method) : bool :=
  match m with
  | Font _ | SetSize _ _ => true
  | _ => false
  end.

(** The methods that only adjust settings: the font methods and the
    three setters of the text layout and the line width. *)
Definition is_setting (m : method) : bool :=
  match m with
  | Font _ | SetTextAlign _ | SetTextBaseline _ | SetLineWidth _ => true
  | _ => false
  end.

(** The dimensions given by the last [setSize] of a sequence, or
    [initial] when there is none. *)
Fixpoint latest_size (ms : list method) (initial : N * N) : N * N :=
  match ms with
  | [] => initial
  | m :: ms' =>
      latest_size ms'
        (match m with
         | SetSize w h => (w, h)
         | _ => initial
         end)
  end.

(** ** Classes of drawing calls *)

(** The calls in which the source has no position fix: circles and
    polygons in either mode, rectangles and rounded rectangles in fill
    mode, [drawFill], [drawStroke] and [clear]. *)
Definition ignores_fix (d : draw_call) : bool :=
  match d with
  | DrawRect _ _ _ _ _ isFill => isFill
  | DrawRoundedRect _ _ _ _ _ _ isFill => isFill
  | DrawCircle _ _ _ _ _ => true
  | DrawPolygon _ _ _ => true
  | DrawFill _ | DrawStroke _ | Clear _ => true
  | DrawLine _ _ _ _ _ | DrawText _ _ _ _ _ => false
  end.

(** The calls that paint without building a path. *)
Definition paints_only (d : draw_call) : bool :=
  match d with
  | DrawRect _ _ _ _ _ _ | DrawText _ _ _ _ _ | DrawFill _ | DrawStroke _
  | Clear _ => true
  | _ => false
  end.

(** The calls that build a path of their own. *)
Definition builds_path (d : draw_call) : bool :=
  match d with
  | DrawLine _ _ _ _ _ | DrawRoundedRect _ _ _ _ _ _ _
  | DrawCircle _ _ _ _ _ => true
  | DrawPolygon _ _ _ => negb (turned_away d)
  | _ => false
  end.

(** The calls that assign the stroke colour: those that pass a colour
    in stroke mode and are not turned away. *)
Definition sets_strokeStyle (d : draw_call) : bool :=
  match call_color d, call_paint d with
  | Some _, Stroking => negb (turned_away d)
  | _, _ => false
  end.

(** ** One assignment of the three font fields *)

(** The three font fields assigned at once and the font string written
    once. *)
Definition font_assign (v : variant) (decorations : list string)
           (size family : string) (c : canvas) : canvas :=
  refreshFont v
    (set_fontDecorations decorations
       (set_fontSize size (set_fontFamily family c))).

(** The settings of the context that no drawing method assigns. *)
Definition settings (cx : context) : string * string * string * Q :=
  (font cx, textAlign cx, textBaseline cx, lineWidth cx).

(** A rectangle call over the whole of a surface of the given size. *)
Definition covers (w h : N) (o : op) : Prop :=
  match o with
  | ClearRect x y a b | FillRect x y a b _ =>
      (x, y, a, b) = (0, 0, px w, px h)
  | _ => False
  end.

(** * Properties *)

(** ** The record of calls *)

Lemma skipn_length_app {A : Type} (l l' : list A) :
  skipn (length l) (l ++ l') = l'.
Proof.
  induction l as [| a l IH]; simpl; auto.
Qed.

Lemma issued_app (c c' : canvas) (l : list op) :
  calls (canvas_context c') = calls (canvas_context c) ++ l ->
  issued c c' = l.
Proof.
  intros E. unfold issued. rewrite E. apply skipn_length_app.
Qed.

Lemma issued_refl (c : canvas) : issued c c = [].
Proof.
  apply issued_app. now rewrite app_nil_r.
Qed.

(** What the context methods do to each property that the proofs read. *)

Lemma calls_log (o : op) (cx : context) :
  calls (Ctx.log o cx) = calls cx ++ [o].
Proof. reflexivity. Qed.

Lemma fillStyle_log (o : op) (cx : context) :
  fillStyle (Ctx.log o cx) = fillStyle cx.
Proof. reflexivity. Qed.

Lemma strokeStyle_log (o : op) (cx : context) :
  strokeStyle (Ctx.log o cx) = strokeStyle cx.
Proof. reflexivity. Qed.

Lemma calls_set_fillStyle (v : color) (cx : context) :
  calls (Ctx.set_fillStyle v cx) = calls cx.
Proof. reflexivity. Qed.

Lemma fillStyle_set_fillStyle (v : color) (cx : context) :
  fillStyle (Ctx.set_fillStyle v cx) = v.
Proof. reflexivity. Qed.

Lemma strokeStyle_set_fillStyle (v : color) (cx : context) :
  strokeStyle (Ctx.set_fillStyle v cx) = strokeStyle cx.
Proof. reflexivity. Qed.

Lemma calls_set_strokeStyle (v : color) (cx : context) :
  calls (Ctx.set_strokeStyle v cx) = calls cx.
Proof. reflexivity. Qed.

Lemma fillStyle_set_strokeStyle (v : color) (cx : context) :
  fillStyle (Ctx.set_strokeStyle v cx) = fillStyle cx.
Proof. reflexivity. Qed.

Lemma strokeStyle_set_strokeStyle (v : color) (cx : context) :
  strokeStyle (Ctx.set_strokeStyle v cx) = v.
Proof. reflexivity. Qed.

Lemma calls_log_all (l : list op) (cx : context) :
  calls (log_all l cx) = calls cx ++ l.
Proof. reflexivity. Qed.

Lemma fillStyle_log_all (l : list op) (cx : context) :
  fillStyle (log_all l cx) = fillStyle cx.
Proof. reflexivity. Qed.

Lemma strokeStyle_log_all (l : list op) (cx : context) :
  strokeStyle (log_all l cx) = strokeStyle cx.
Proof. reflexivity. Qed.

Create Rewrite HintDb ctx.

#[local] Hint Rewrite
  calls_log fillStyle_log strokeStyle_log
  calls_set_fillStyle fillStyle_set_fillStyle strokeStyle_set_fillStyle
  calls_set_strokeStyle fillStyle_set_strokeStyle strokeStyle_set_strokeStyle
  calls_log_all fillStyle_log_all strokeStyle_log_all : ctx.

(** Reduce the context methods to [Ctx.log] and the assignments, then
    read the properties off by rewriting: unfolding the record updates
    themselves would copy the context at every call. *)
Ltac ctx_methods :=
  unfold on_context, fill_color, stroke_color;
  cbn [canvas_context canvas_element usePositionFix width height];
  unfold Ctx.beginPath, Ctx.moveTo, Ctx.lineTo, Ctx.arc, Ctx.closePath,
    Ctx.fill, Ctx.stroke, Ctx.fillRect, Ctx.strokeRect, Ctx.clearRect,
    Ctx.fillText, Ctx.strokeText.

Ltac ctx_read :=
  ctx_methods; autorewrite with ctx;
  rewrite <- ?app_assoc; cbn [app effective].

Ltac issued_calls := apply issued_app; ctx_read; reflexivity.

(** ** The loop of [drawPolygon] *)

Lemma log_all_nil (cx : context) : log_all [] cx = cx.
Proof.
  destruct cx. unfold log_all. simpl. now rewrite app_nil_r.
Qed.

Lemma log_all_cons (o : op) (l : list op) (cx : context) :
  log_all l (Ctx.log o cx) = log_all (o :: l) cx.
Proof.
  unfold log_all, Ctx.log. simpl. now rewrite <- app_assoc.
Qed.

Lemma skipn_nth_error {A : Type} (l : list A) :
  forall i,
    skipn i l =
    match nth_error l i with
    | Some a => a :: skipn (S i) l
    | None => []
    end.
Proof.
  induction l as [| a l IH]; intros [| i]; simpl; auto.
Qed.

(** The loop stops on its condition, not for lack of fuel, and has then
    issued one [moveTo] for every pair of coordinates from [i] on. *)
Lemma polygon_loop_moveTos (vs : list Q) :
  forall fuel i cx,
    (length vs <= i + 2 * fuel)%nat ->
    polygon_loop fuel i vs cx = log_all (moveTos (skipn i vs)) cx.
Proof.
  induction fuel as [| fuel IH]; intros i cx Hfuel; simpl.
  - rewrite skipn_all2 by lia. simpl. now rewrite log_all_nil.
  - destruct (Nat.ltb_spec i (length vs)) as [Hlt | Hge].
    + rewrite IH by lia.
      rewrite (skipn_nth_error vs i). unfold index.
      destruct (nth_error vs i) as [a |] eqn:Ea.
      * rewrite (skipn_nth_error vs (S i)).
        replace (i + 1)%nat with (S i) by lia.
        replace (i + 2)%nat with (S (S i)) by lia.
        destruct (nth_error vs (S i)) as [b |] eqn:Eb.
        -- simpl. unfold Ctx.moveTo. now rewrite log_all_cons.
        -- apply nth_error_None in Eb.
           rewrite skipn_all2 by lia. simpl.
           unfold Ctx.moveTo. now rewrite log_all_cons.
      * apply nth_error_None in Ea. lia.
    + rewrite skipn_all2 by lia. simpl. now rewrite log_all_nil.
Qed.

(** [drawPolygon] on a list with a first point: the colour is set and
    one batch of calls is recorded. *)
Lemma drawPolygon_context (x0 y0 : Q) (rest : list Q) (color : option color)
      (isFill : bool) (c : canvas) :
  canvas_context (drawPolygon (Some (x0 :: y0 :: rest)) color isFill c) =
  let cx := canvas_context c in
  log_all
    ([BeginPath; LineTo (Num x0) (Num y0)] ++ moveTos rest ++
     [ClosePath;
      if isFill
      then Fill (effective (fillStyle cx) color)
      else Stroke (effective (strokeStyle cx) color)])
    (if isFill then fill_color color cx else stroke_color color cx).
Proof.
  unfold drawPolygon.
  change (length (x0 :: y0 :: rest) <? 2)%nat with false. cbv iota.
  unfold on_context. cbn [canvas_context]. cbv zeta.
  rewrite polygon_loop_moveTos by (simpl; lia).
  change (skipn 2 (x0 :: y0 :: rest)) with rest.
  destruct isFill, color; ctx_methods; unfold Ctx.log, Ctx.set_fillStyle,
    Ctx.set_strokeStyle, log_all;
    cbn [calls fillStyle strokeStyle font textAlign textBaseline lineWidth
         effective];
    rewrite <- ?app_assoc; reflexivity.
Qed.

Lemma drawPolygon_issued (x0 y0 : Q) (rest : list Q) (color : option color)
      (isFill : bool) (c : canvas) :
  issued c (drawPolygon (Some (x0 :: y0 :: rest)) color isFill c) =
  [BeginPath; LineTo (Num x0) (Num y0)] ++ moveTos rest ++
  [ClosePath;
   if isFill
   then Fill (effective (fillStyle (canvas_context c)) color)
   else Stroke (effective (strokeStyle (canvas_context c)) color)].
Proof.
  apply issued_app. rewrite drawPolygon_context.
  destruct isFill, color; ctx_read; reflexivity.
Qed.

(** ** Paths of isolated points *)

Lemma moveTos_all_MoveTo : forall rest, Forall is_MoveTo (moveTos rest).
Proof.
  fix IH 1.
  intros [| x [| y rest]]; simpl; repeat constructor. apply IH.
Qed.

Section PathFacts.

Variables cos sin : Q -> Q.

Lemma path_run_app (l1 l2 : list op) :
  forall p,
    path_run cos sin p (l1 ++ l2) =
    match path_run cos sin p l1 with
    | Some p' => path_run cos sin p' l2
    | None => None
    end.
Proof.
  induction l1 as [| o l1 IH]; intros p; simpl; auto.
  destruct (path_step cos sin p o); auto.
Qed.

(** A run of [moveTo] calls only adds isolated points, and leaves a
    path that has a subpath with one. *)
Lemma path_run_MoveTo (l : list op) :
  Forall is_MoveTo l ->
  forall p,
    no_segment p -> p <> [] ->
    exists p',
      path_run cos sin p l = Some p' /\ no_segment p' /\ p' <> [].
Proof.
  induction 1 as [| o l Ho _ IH]; intros p Hp Hne; simpl.
  - now exists p.
  - destruct o as [| x y | | | | | | | | | |]; try contradiction.
    destruct x as [x |], y as [y |]; simpl; try (now apply IH).
    apply IH; [| discriminate].
    constructor; auto.
Qed.

End PathFacts.

(** ** What each drawing method sends to the context *)

Lemma drawLine_issued (x1 y1 x2 y2 : Q) (color : option color) (c : canvas) :
  issued c (drawLine x1 y1 x2 y2 color c) =
  [BeginPath;
   MoveTo (Num (positionFix c x1)) (Num (positionFix c y1));
   LineTo (Num (positionFix c x2)) (Num (positionFix c y2));
   Stroke (effective (strokeStyle (canvas_context c)) color)].
Proof.
  unfold drawLine. destruct color; issued_calls.
Qed.

Lemma drawRect_issued (x y w h : Q) (color : option color) (isFill : bool)
      (c : canvas) :
  issued c (drawRect x y w h color isFill c) =
  [if isFill
   then FillRect x y w h (effective (fillStyle (canvas_context c)) color)
   else StrokeRect (positionFix c x) (positionFix c y) w h
                   (effective (strokeStyle (canvas_context c)) color)].
Proof.
  unfold drawRect. destruct isFill, color; issued_calls.
Qed.

Lemma drawRoundedRect_issued (x y w h r : Q) (color : option color)
      (isFill : bool) (c : canvas) :
  issued c (drawRoundedRect x y w h r color isFill c) =
  rounded_rect_path x y w h r ++
  [if isFill
   then Fill (effective (fillStyle (canvas_context c)) color)
   else Stroke (effective (strokeStyle (canvas_context c)) color)].
Proof.
  unfold drawRoundedRect, rounded_rect_path.
  destruct isFill, color; issued_calls.
Qed.

Lemma drawCircle_issued (x y r : Q) (color : option color) (isFill : bool)
      (c : canvas) :
  issued c (drawCircle x y r color isFill c) =
  [BeginPath; Arc x y r 0 (Math_PI * 2); ClosePath;
   if isFill
   then Fill (effective (fillStyle (canvas_context c)) color)
   else Stroke (effective (strokeStyle (canvas_context c)) color)].
Proof.
  unfold drawCircle. destruct isFill, color; issued_calls.
Qed.

Lemma drawText_issued (x y : Q) (text : string) (color : option color)
      (isFill : bool) (c : canvas) :
  issued c (drawText x y text color isFill c) =
  [if isFill
   then FillText text (positionFix c x) (positionFix c y)
                 (effective (fillStyle (canvas_context c)) color)
   else StrokeText text (positionFix c x) (positionFix c y)
                   (effective (strokeStyle (canvas_context c)) color)].
Proof.
  unfold drawText. destruct isFill, color; issued_calls.
Qed.

Lemma drawFill_issued (color : option color) (c : canvas) :
  issued c (drawFill color c) =
  [Fill (effective (fillStyle (canvas_context c)) color)].
Proof.
  unfold drawFill. destruct color; issued_calls.
Qed.

Lemma drawStroke_issued (color : option color) (c : canvas) :
  issued c (drawStroke color c) =
  [Stroke (effective (strokeStyle (canvas_context c)) color)].
Proof.
  unfold drawStroke. destruct color; issued_calls.
Qed.

Lemma painted_app (l1 l2 : list op) :
  painted (l1 ++ l2) = painted l1 ++ painted l2.
Proof.
  induction l1 as [| o l1 IH]; simpl; auto.
  destruct (op_paint o); simpl; now rewrite IH.
Qed.

Lemma painted_MoveTo (l : list op) : Forall is_MoveTo l -> painted l = [].
Proof.
  induction 1 as [| o l Ho _ IH]; simpl; auto.
  destruct o; try contradiction. exact IH.
Qed.

(** ** The rounded rectangle in stroke mode *)

(** C1 (the code departs from it).  In stroke mode the path that is
    stroked is the rounded rectangle built from the origin [(x, y)] as
    passed, whatever the position-fix flag: the half-pixel shift of the
    stroke branch is made after the arcs have been issued and never
    reaches them. *)
Theorem drawRoundedRect_stroke_path_not_fixed
        (x y w h r : Q) (color : option color) (c : canvas) :
  issued c (drawRoundedRect x y w h r color false c) =
  rounded_rect_path x y w h r ++
  [Stroke (effective (strokeStyle (canvas_context c)) color)].
Proof.
  apply (drawRoundedRect_issued x y w h r color false c).
Qed.

(** On a wrapper built with the default options, where the flag is set,
    [drawRoundedRect(0, 0, 10, 10, 2, null, false)] centres its first arc
    at 0 + 2, not at 0 + 0.5 + 2. *)
Example drawRoundedRect_stroke_default_options :
  let c := constructor 100 100 None in
  usePositionFix c = true /\
  issued c (drawRoundedRect 0 0 10 10 2 None false c) =
  rounded_rect_path 0 0 10 10 2 ++ [Stroke (ColorString "#000000")] /\
  ~ (0 + 2 == 0 + 0.5 + 2).
Proof.
  cbv zeta. split; [reflexivity | split].
  - apply (drawRoundedRect_issued 0 0 10 10 2 None false).
  - intros H. vm_compute in H. discriminate H.
Qed.

(** ** The polygon *)

(** C2 (the code departs from it).  For a vertex list with a first
    point, [drawPolygon] issues [lineTo] for the first point and [moveTo]
    for every later one, then closes and paints.  Every later point so
    opens a subpath of its own: the path built has no segment at all, and
    no point is joined to the one before it. *)
Theorem drawPolygon_joins_no_points
        (cos sin : Q -> Q) (p0 : list subpath)
        (x0 y0 : Q) (rest : list Q) (color : option color) (isFill : bool)
        (c : canvas) :
  let l := issued c (drawPolygon (Some (x0 :: y0 :: rest)) color isFill c) in
  l = [BeginPath; LineTo (Num x0) (Num y0)] ++ moveTos rest ++
      [ClosePath;
       if isFill
       then Fill (effective (fillStyle (canvas_context c)) color)
       else Stroke (effective (strokeStyle (canvas_context c)) color)] /\
  exists p, path_run cos sin p0 l = Some p /\ no_segment p.
Proof.
  cbv zeta. rewrite drawPolygon_issued. split; [reflexivity |].
  cbn [app path_run path_step].
  rewrite path_run_app.
  destruct (path_run_MoveTo cos sin (moveTos rest) (moveTos_all_MoveTo rest)
              [open_at (x0, y0)]) as (p & Hrun & Hseg & Hne).
  { repeat constructor. }
  { discriminate. }
  rewrite Hrun.
  destruct p as [| sp older]; [contradiction |].
  inversion Hseg as [| ? ? Hsp Holder]; subst.
  exists (open_at (sp_first sp) :: close sp :: older).
  split.
  - destruct isFill; reflexivity.
  - repeat constructor; auto.
Qed.

(** The triangle of the documentation: three isolated points. *)
Example drawPolygon_triangle (cos sin : Q -> Q) :
  let c := constructor 100 100 None in
  let l := issued c (drawPolygon (Some [0; 0; 100; 0; 50; 50]) None true c) in
  l = [BeginPath; LineTo (Num 0) (Num 0); MoveTo (Num 100) (Num 0);
       MoveTo (Num 50) (Num 50); ClosePath; Fill (ColorString "#000000")] /\
  path_run cos sin [] l =
  Some [open_at (50, 50); close (open_at (50, 50)); open_at (100, 0);
        open_at (0, 0)].
Proof.
  cbv zeta. rewrite drawPolygon_issued. split; reflexivity.
Qed.

(** C6.  [drawPolygon] given no vertex list, or one with fewer than two
    coordinates, returns the wrapper as it was: no call reaches the
    context, no property of it is assigned and no field of the wrapper
    changes. *)
Theorem drawPolygon_guard
        (vertexes : option (list Q)) (color : option color) (isFill : bool)
        (c : canvas) :
  (forall vs, vertexes = Some vs -> (length vs < 2)%nat) ->
  drawPolygon vertexes color isFill c = c /\
  issued c (drawPolygon vertexes color isFill c) = [].
Proof.
  intros Hshort.
  assert (E : drawPolygon vertexes color isFill c = c).
  { unfold drawPolygon. destruct vertexes as [vs |]; [| reflexivity].
    specialize (Hshort vs eq_refl).
    destruct (Nat.ltb_spec (length vs) 2); [reflexivity | lia]. }
  rewrite E. split; [reflexivity | apply issued_refl].
Qed.

Lemma drawPolygon_guard_witness :
  let c := constructor 100 100 None in
  (drawPolygon (Some [5]) (Some (ColorString "red")) true c = c /\
   issued c (drawPolygon (Some [5]) (Some (ColorString "red")) true c) = []) /\
  (drawPolygon (Some []) None false c = c /\
   issued c (drawPolygon (Some []) None false c) = []) /\
  (drawPolygon None None true c = c /\
   issued c (drawPolygon None None true c) = []).
Proof.
  cbv zeta. split; [| split].
  - apply (drawPolygon_guard (Some [5])).
    intros vs E. injection E as <-. simpl. lia.
  - apply (drawPolygon_guard (Some [])).
    intros vs E. injection E as <-. simpl. lia.
  - apply (drawPolygon_guard None). intros vs E. discriminate E.
Defined.

(** ** Fill mode and the half-pixel shift *)

Lemma moveTos_flatten (pts : list (Q * Q)) :
  moveTos (flatten pts) =
  map (fun pt => MoveTo (Num (fst pt)) (Num (snd pt))) pts.
Proof.
  induction pts as [| pt pts IH]; simpl; [reflexivity |].
  now rewrite <- IH.
Qed.

Lemma positions_app (l1 l2 : list op) :
  positions (l1 ++ l2) = positions l1 ++ positions l2.
Proof.
  induction l1 as [| o l1 IH]; [reflexivity |].
  destruct o; simpl; now rewrite IH.
Qed.

Lemma positions_moveTos_flatten (pts : list (Q * Q)) :
  positions (moveTos (flatten pts)) =
  map (fun pt => (Num (fst pt), Num (snd pt))) pts.
Proof.
  rewrite moveTos_flatten.
  induction pts as [| pt pts IH]; simpl; [reflexivity |].
  now rewrite IH.
Qed.

(** C4 (as amended).  In fill mode, whatever the position-fix flag,
    [drawRect], [drawRoundedRect], [drawCircle] and [drawPolygon] hand
    the caller's coordinates to the context with no shift; [drawText]
    hands [fillText] the origin shifted by 0.5 when the flag is set, and
    the origin as passed when it is not. *)
Theorem fill_mode_coordinates (color : option color) (c : canvas) :
  let s := effective (fillStyle (canvas_context c)) color in
  (forall x y w h,
      issued c (drawRect x y w h color true c) = [FillRect x y w h s]) /\
  (forall x y w h r,
      issued c (drawRoundedRect x y w h r color true c) =
      rounded_rect_path x y w h r ++ [Fill s]) /\
  (forall x y r,
      issued c (drawCircle x y r color true c) =
      [BeginPath; Arc x y r 0 (Math_PI * 2); ClosePath; Fill s]) /\
  (forall pt pts,
      let l :=
        issued c (drawPolygon (Some (flatten (pt :: pts))) color true c) in
      positions l = map (fun q => (Num (fst q), Num (snd q))) (pt :: pts) /\
      painted l = [(Filling, s)]) /\
  (forall x y text,
      issued c (drawText x y text color true c) =
      [FillText text
                (if usePositionFix c then x + 0.5 else x)
                (if usePositionFix c then y + 0.5 else y) s]).
Proof.
  cbv zeta. repeat split; intros.
  - apply (drawRect_issued x y w h color true).
  - apply (drawRoundedRect_issued x y w h r color true).
  - apply (drawCircle_issued x y r color true).
  - change (flatten (pt :: pts)) with (fst pt :: snd pt :: flatten pts).
    rewrite drawPolygon_issued, !positions_app, positions_moveTos_flatten.
    cbn [positions app map]. now rewrite app_nil_r.
  - change (flatten (pt :: pts)) with (fst pt :: snd pt :: flatten pts).
    rewrite drawPolygon_issued, !painted_app.
    rewrite (painted_MoveTo _ (moveTos_all_MoveTo _)). reflexivity.
  - apply (drawText_issued x y text color true).
Qed.

(** Text is shifted in fill mode too: on a wrapper built with the
    default options, [drawText(0, 0, text)] in fill mode passes 0 + 0.5 to
    [fillText] for both coordinates, which is not the caller's 0. *)
Lemma drawText_fill_is_shifted :
  let c := constructor 100 100 None in
  issued c (drawText 0 0 "a" None true c) =
  [FillText "a" (0 + 0.5) (0 + 0.5) (ColorString "#000000")] /\
  ~ (0 + 0.5 == 0).
Proof.
  cbv zeta. split; [reflexivity |].
  intros H. vm_compute in H. discriminate H.
Qed.

(** ** Clearing the surface *)

Lemma is_clear_literal_true (col : color) :
  is_clear_literal col = true <-> col = ColorString "clear".
Proof.
  destruct col as [s | id | id]; simpl; split; intros H;
    try discriminate.
  - apply String.eqb_eq in H. now subst.
  - injection H as ->. reflexivity.
Qed.

Lemma is_clear_literal_false (col : color) :
  col <> ColorString "clear" -> is_clear_literal col = false.
Proof.
  intros H. destruct (is_clear_literal col) eqn:E; [| reflexivity].
  apply is_clear_literal_true in E. contradiction.
Qed.

(** C7.  The module variant of [clear] first clears the whole surface,
    and goes on to set the fill colour and fill the whole surface exactly
    when the colour is neither [null] nor the string [clear]; the
    [Canvas.js] variant never clears: it fills the whole surface, with
    the colour when there is one and with the fill colour in place when
    there is none. *)
Theorem clear_by_variant (c : canvas) :
  let w := px (getWidth c) in
  let h := px (getHeight c) in
  let cx := canvas_context c in
  (issued c (clear Part000 None c) = [ClearRect 0 0 w h] /\
   fillStyle (canvas_context (clear Part000 None c)) = fillStyle cx) /\
  (issued c (clear Part000 (Some (ColorString "clear")) c) =
   [ClearRect 0 0 w h] /\
   fillStyle (canvas_context (clear Part000 (Some (ColorString "clear")) c)) =
   fillStyle cx) /\
  (forall col,
      col <> ColorString "clear" ->
      issued c (clear Part000 (Some col) c) =
      [ClearRect 0 0 w h; FillRect 0 0 w h col] /\
      fillStyle (canvas_context (clear Part000 (Some col) c)) = col) /\
  (issued c (clear CanvasJs None c) = [FillRect 0 0 w h (fillStyle cx)] /\
   fillStyle (canvas_context (clear CanvasJs None c)) = fillStyle cx) /\
  (forall col,
      issued c (clear CanvasJs (Some col) c) = [FillRect 0 0 w h col] /\
      fillStyle (canvas_context (clear CanvasJs (Some col) c)) = col).
Proof.
  cbv zeta. unfold getWidth, getHeight.
  split; [| split; [| split; [| split]]].
  - split; [issued_calls | reflexivity].
  - split; [issued_calls | reflexivity].
  - intros col Hcol. unfold clear.
    rewrite (is_clear_literal_false col Hcol).
    split; [issued_calls | ctx_read; reflexivity].
  - split; [issued_calls | ctx_read; reflexivity].
  - intros col. split; [issued_calls | ctx_read; reflexivity].
Qed.

Lemma clear_by_variant_witness :
  let c := constructor 300 150 None in
  issued c (clear Part000 (Some (ColorString "blue")) c) =
  [ClearRect 0 0 (px 300) (px 150);
   FillRect 0 0 (px 300) (px 150) (ColorString "blue")] /\
  fillStyle (canvas_context (clear Part000 (Some (ColorString "blue")) c)) =
  ColorString "blue".
Proof.
  cbv zeta.
  apply (proj1 (proj2 (proj2 (clear_by_variant (constructor 300 150 None))))).
  discriminate.
Defined.

(** ** The frame of the drawing methods *)

(** C9.  No drawing method touches the wrapper outside its context: the
    position-fix flag, the three font fields and the size of the surface
    are the same after the call as before it. *)
Theorem draw_preserves_presentation
        (v : variant) (d : draw_call) (c : canvas) :
  presentation (invoke v d c) = presentation c.
Proof.
  destruct d as [x1 y1 x2 y2 color | x y w h color isFill
                 | x y w h r color isFill | x y r color isFill
                 | vertexes color isFill | x y text color isFill
                 | color | color | color];
    cbn [invoke].
  - reflexivity.
  - unfold drawRect. destruct isFill; reflexivity.
  - unfold drawRoundedRect. destruct isFill; reflexivity.
  - reflexivity.
  - unfold drawPolygon. destruct vertexes as [vs |]; [| reflexivity].
    destruct (length vs <? 2)%nat; reflexivity.
  - reflexivity.
  - reflexivity.
  - reflexivity.
  - destruct v; reflexivity.
Qed.

(** ** What the calls painted *)

(** A call that is not turned away paints once, in its own way, with
    its colour or else the style in place. *)
Lemma invoke_painted (v : variant) (d : draw_call) (c : canvas) :
  is_clear_call d = false ->
  turned_away d = false ->
  painted (issued c (invoke v d c)) =
  [(call_paint d,
    effective (style_of (call_paint d) (canvas_context c)) (call_color d))].
Proof.
  intros Hclear Haway.
  destruct d as [x1 y1 x2 y2 color | x y w h color isFill
                 | x y w h r color isFill | x y r color isFill
                 | vertexes color isFill | x y text color isFill
                 | color | color | color];
    cbn [invoke call_paint call_color]; try discriminate Hclear.
  - now rewrite drawLine_issued.
  - rewrite drawRect_issued. now destruct isFill.
  - rewrite drawRoundedRect_issued. now destruct isFill.
  - rewrite drawCircle_issued. now destruct isFill.
  - destruct vertexes as [[| x0 [| y0 rest]] |]; try discriminate Haway.
    rewrite drawPolygon_issued, !painted_app.
    rewrite (painted_MoveTo _ (moveTos_all_MoveTo rest)).
    now destruct isFill.
  - rewrite drawText_issued. now destruct isFill.
  - now rewrite drawFill_issued.
  - now rewrite drawStroke_issued.
Qed.

(** The styles of the context after a call that is not turned away. *)
Lemma invoke_styles (v : variant) (d : draw_call) (c : canvas) :
  is_clear_call d = false ->
  turned_away d = false ->
  style_of (call_paint d) (canvas_context (invoke v d c)) =
  effective (style_of (call_paint d) (canvas_context c)) (call_color d) /\
  style_of (other (call_paint d)) (canvas_context (invoke v d c)) =
  style_of (other (call_paint d)) (canvas_context c).
Proof.
  intros Hclear Haway.
  destruct d as [x1 y1 x2 y2 color | x y w h color isFill
                 | x y w h r color isFill | x y r color isFill
                 | vertexes color isFill | x y text color isFill
                 | color | color | color];
    cbn [invoke call_paint call_color]; try discriminate Hclear.
  - unfold drawLine. destruct color; split; ctx_read; reflexivity.
  - unfold drawRect. destruct isFill, color; split; ctx_read; reflexivity.
  - unfold drawRoundedRect.
    destruct isFill, color; split; ctx_read; reflexivity.
  - unfold drawCircle. destruct isFill, color; split; ctx_read; reflexivity.
  - destruct vertexes as [[| x0 [| y0 rest]] |]; try discriminate Haway.
    rewrite drawPolygon_context.
    destruct isFill, color; split; ctx_read; reflexivity.
  - unfold drawText. destruct isFill, color; split; ctx_read; reflexivity.
  - unfold drawFill. destruct color; split; ctx_read; reflexivity.
  - unfold drawStroke. destruct color; split; ctx_read; reflexivity.
Qed.

Lemma invoke_turned_away (v : variant) (d : draw_call) (c : canvas) :
  turned_away d = true -> invoke v d c = c.
Proof.
  destruct d as [| | | | vertexes color isFill | | | |];
    try discriminate.
  cbn [invoke turned_away]. unfold drawPolygon.
  destruct vertexes as [vs |]; [| reflexivity].
  now intros ->.
Qed.

(** ** The sticky colour *)

(** C5 (as amended).  For each of [drawLine], [drawRect],
    [drawRoundedRect], [drawCircle], [drawPolygon], [drawText],
    [drawFill] and [drawStroke]: a [drawPolygon] that its guard turns
    away leaves everything as it was, whatever the colour; any other call
    with a [null] colour leaves the fill and stroke colours unchanged and
    paints with the one in place, and with a colour it sets exactly the
    one its way of painting reads, before it paints with it. *)
Theorem draw_color_contract (v : variant) (d : draw_call) (c : canvas) :
  is_clear_call d = false ->
  let before := canvas_context c in
  let after := canvas_context (invoke v d c) in
  if turned_away d then invoke v d c = c
  else
    match call_color d with
    | None =>
        fillStyle after = fillStyle before /\
        strokeStyle after = strokeStyle before /\
        painted (issued c (invoke v d c)) =
        [(call_paint d, style_of (call_paint d) before)]
    | Some col =>
        style_of (call_paint d) after = col /\
        style_of (other (call_paint d)) after =
        style_of (other (call_paint d)) before /\
        painted (issued c (invoke v d c)) = [(call_paint d, col)]
    end.
Proof.
  intros Hclear. cbv zeta.
  destruct (turned_away d) eqn:Haway.
  - now apply invoke_turned_away.
  - pose proof (invoke_painted v d c Hclear Haway) as Hp.
    destruct (invoke_styles v d c Hclear Haway) as [Hs Ho].
    destruct (call_color d) as [col |]; cbn [effective] in *.
    + auto.
    + destruct (call_paint d); cbn [style_of other] in *; auto.
Qed.

Lemma draw_color_contract_witness :
  let c := constructor 100 100 None in
  let red := ColorString "red" in
  (fillStyle (canvas_context (drawRect 0 0 10 10 (Some red) true c)) = red /\
   strokeStyle (canvas_context (drawRect 0 0 10 10 (Some red) true c)) =
   ColorString "#000000" /\
   painted (issued c (drawRect 0 0 10 10 (Some red) true c)) =
   [(Filling, red)]) /\
  drawPolygon (Some [5]) (Some red) true c = c.
Proof.
  cbv zeta. split.
  - exact (draw_color_contract
             CanvasJs (DrawRect 0 0 10 10 (Some (ColorString "red")) true)
             (constructor 100 100 None) eq_refl).
  - exact (draw_color_contract
             Part000 (DrawPolygon (Some [5]) (Some (ColorString "red")) true)
             (constructor 100 100 None) eq_refl).
Defined.

(** A colour is not always set: [drawPolygon] with an empty vertex list
    and the colour red returns at its guard, and neither the fill colour
    nor the stroke colour of the context has become red. *)
Lemma drawPolygon_guard_skips_color :
  let c := constructor 100 100 None in
  let c' := drawPolygon (Some []) (Some (ColorString "red")) true c in
  fillStyle (canvas_context c') <> ColorString "red" /\
  strokeStyle (canvas_context c') <> ColorString "red".
Proof.
  cbv zeta. split; discriminate.
Qed.

Lemma clear_fillStyle (v : variant) (col : color) (c : canvas) :
  (v = Part000 -> col <> ColorString "clear") ->
  fillStyle (canvas_context (clear v (Some col) c)) = col.
Proof.
  intros Hcol. unfold clear. destruct v.
  - ctx_read. reflexivity.
  - rewrite (is_clear_literal_false col (Hcol eq_refl)).
    ctx_read. reflexivity.
Qed.

Lemma invoke_keeps_fillStyle (v : variant) (d : draw_call) (c : canvas) :
  sets_fillStyle v d = false ->
  fillStyle (canvas_context (invoke v d c)) = fillStyle (canvas_context c).
Proof.
  intros Hd.
  destruct (turned_away d) eqn:Haway.
  { now rewrite invoke_turned_away. }
  destruct (is_clear_call d) eqn:Hclear.
  - destruct d as [| | | | | | | | color]; try discriminate Hclear.
    unfold sets_fillStyle in Hd. cbn in Hd. cbn [invoke]. unfold clear.
    destruct v, color as [col |]; try discriminate Hd.
    + ctx_read. reflexivity.
    + apply negb_false_iff in Hd. rewrite Hd. ctx_read. reflexivity.
    + ctx_read. reflexivity.
  - destruct (invoke_styles v d c Hclear Haway) as [Hs Ho].
    unfold sets_fillStyle in Hd. rewrite Haway in Hd.
    destruct (call_paint d); cbn [style_of other] in Hs, Ho.
    + destruct (call_color d) as [col |]; [| exact Hs].
      destruct d, v; discriminate.
    + exact Ho.
Qed.

Lemma draw_run_keeps_fillStyle (v : variant) (ds : list draw_call) :
  Forall (fun d => sets_fillStyle v d = false) ds ->
  forall c,
    fillStyle (canvas_context (draw_run v ds c)) =
    fillStyle (canvas_context c).
Proof.
  induction 1 as [| d ds Hd _ IH]; intros c; [reflexivity |].
  unfold draw_run in *. cbn [fold_left].
  rewrite IH. now apply invoke_keeps_fillStyle.
Qed.

(** C10.  After [clear] with a colour (in the module variant: one other
    than the string [clear]) the fill colour of the context is that
    colour; it stays so through any drawing calls that assign no fill
    colour, and a drawing call in fill mode with a [null] colour that
    comes after them paints with it, by filling, and leaves it in
    place. *)
Theorem clear_color_is_sticky
        (v : variant) (col : color) (between : list draw_call)
        (d : draw_call) (c : canvas) :
  (v = Part000 -> col <> ColorString "clear") ->
  Forall (fun d' => sets_fillStyle v d' = false) between ->
  is_clear_call d = false ->
  turned_away d = false ->
  call_paint d = Filling ->
  call_color d = None ->
  let c1 := clear v (Some col) c in
  let c2 := draw_run v between c1 in
  let c3 := invoke v d c2 in
  fillStyle (canvas_context c1) = col /\
  fillStyle (canvas_context c2) = col /\
  painted (issued c2 c3) = [(Filling, col)] /\
  fillStyle (canvas_context c3) = col.
Proof.
  intros Hcol Hbetween Hclear Haway Hfill Hnull. cbv zeta.
  pose proof (clear_fillStyle v col c Hcol) as H1.
  pose proof (draw_run_keeps_fillStyle v between Hbetween
                (clear v (Some col) c)) as H2.
  rewrite H1 in H2.
  split; [exact H1 |]. split; [exact H2 |].
  pose proof (invoke_painted v d (draw_run v between (clear v (Some col) c))
                Hclear Haway) as Hp.
  destruct (invoke_styles v d (draw_run v between (clear v (Some col) c))
              Hclear Haway) as [Hs _].
  rewrite Hfill, Hnull in Hp, Hs. cbn [style_of effective] in Hp, Hs.
  rewrite H2 in Hp, Hs. auto.
Qed.

Lemma clear_color_is_sticky_witness :
  let blue := ColorString "blue" in
  let red := ColorString "red" in
  let c1 := clear Part000 (Some blue) (constructor 300 150 None) in
  let c2 := draw_run Part000 [DrawLine 0 0 10 10 (Some red)] c1 in
  let c3 := drawRect 0 0 10 10 None true c2 in
  fillStyle (canvas_context c1) = blue /\
  fillStyle (canvas_context c2) = blue /\
  painted (issued c2 c3) = [(Filling, blue)] /\
  fillStyle (canvas_context c3) = blue.
Proof.
  cbv zeta.
  apply (clear_color_is_sticky
           Part000 (ColorString "blue")
           [DrawLine 0 0 10 10 (Some (ColorString "red"))]
           (DrawRect 0 0 10 10 None true)
           (constructor 300 150 None)).
  - intros _. discriminate.
  - repeat constructor.
  - reflexivity.
  - reflexivity.
  - reflexivity.
  - reflexivity.
Defined.

(** ** The font string *)

Section FontFacts.

Variable Number_toString : Q -> string.

(** Each call sets the fields it names and no other. *)
Lemma font_invoke_fields (v : variant) (k : font_call) (c : canvas) :
  fontFamily (font_invoke Number_toString v k c) =
  match sets_family k with Some f => f | None => fontFamily c end /\
  fontSize (font_invoke Number_toString v k c) =
  match sets_size Number_toString k with
  | Some s => s
  | None => fontSize c
  end /\
  fontDecorations (font_invoke Number_toString v k c) =
  match sets_decorations k with Some d => d | None => fontDecorations c end.
Proof.
  destruct k as [n | f | [d |] | [f |] [n |] [d |]];
    repeat split; reflexivity.
Qed.

(** Each call ends by writing the font string of the fields. *)
Lemma font_invoke_font (v : variant) (k : font_call) (c : canvas) :
  font (canvas_context (font_invoke Number_toString v k c)) =
  composed_font v (fontDecorations (font_invoke Number_toString v k c))
                (fontSize (font_invoke Number_toString v k c))
                (fontFamily (font_invoke Number_toString v k c)).
Proof.
  destruct k as [n | f | [d |] | [f |] [n |] [d |]]; reflexivity.
Qed.

Lemma font_run_fields (v : variant) (ks : list font_call) :
  forall c,
    fontFamily (font_run Number_toString v ks c) =
    latest sets_family ks (fontFamily c) /\
    fontSize (font_run Number_toString v ks c) =
    latest (sets_size Number_toString) ks (fontSize c) /\
    fontDecorations (font_run Number_toString v ks c) =
    latest sets_decorations ks (fontDecorations c).
Proof.
  induction ks as [| k ks IH]; intros c.
  - repeat split.
  - destruct (font_invoke_fields v k c) as (Hf & Hs & Hd).
    destruct (IH (font_invoke Number_toString v k c)) as (IHf & IHs & IHd).
    cbn [latest]. rewrite <- Hf, <- Hs, <- Hd. auto.
Qed.

Lemma font_run_snoc (v : variant) (ks : list font_call) (k : font_call)
      (c : canvas) :
  font_run Number_toString v (ks ++ [k]) c =
  font_invoke Number_toString v k (font_run Number_toString v ks c).
Proof.
  unfold font_run. now rewrite fold_left_app.
Qed.

Lemma latest_snoc {A : Type} (sets : font_call -> option A)
      (ks : list font_call) (k : font_call) :
  forall initial,
    latest sets (ks ++ [k]) initial =
    match sets k with
    | Some a => a
    | None => latest sets ks initial
    end.
Proof.
  induction ks as [| k' ks IH]; intros initial; simpl.
  - reflexivity.
  - apply IH.
Qed.

End FontFacts.

(** C3.  After any sequence of calls of the four font methods on a new
    wrapper, the font string last written to the context is the
    decorations joined by single spaces, a space, the size with its [px],
    a space and the family (in double quotes in [Canvas.js]), each of the
    three taken from the last call that set it, or from the constructor
    when none did.  In particular, after a [setFont] each field whose
    argument is [null] appears in the string with the value it had. *)
Theorem font_string_from_latest_fields
        (Number_toString : Q -> string) (v : variant) (w h : N)
        (options : option bool) (ks : list font_call) :
  let after l :=
    font (canvas_context
            (font_run Number_toString v l (constructor w h options))) in
  let decorations l := latest sets_decorations l [] in
  let size l := latest (sets_size Number_toString) l "10px" in
  let family l := latest sets_family l "sans-serif" in
  (forall k,
      after (ks ++ [k]) =
      composed_font v (decorations (ks ++ [k])) (size (ks ++ [k]))
                    (family (ks ++ [k]))) /\
  (forall f n d,
      after (ks ++ [SetFont f n d]) =
      composed_font v
        (match d with Some d' => d' | None => decorations ks end)
        (match n with
         | Some n' => (Number_toString n' ++ "px")%string
         | None => size ks
         end)
        (match f with Some f' => f' | None => family ks end)).
Proof.
  cbv zeta.
  assert (H : forall k,
             font (canvas_context
                     (font_run Number_toString v (ks ++ [k])
                               (constructor w h options))) =
             composed_font v
               (latest sets_decorations (ks ++ [k]) [])
               (latest (sets_size Number_toString) (ks ++ [k]) "10px")
               (latest sets_family (ks ++ [k]) "sans-serif")).
  { intros k.
    destruct (font_run_fields Number_toString v (ks ++ [k])
                (constructor w h options)) as (Hf & Hs & Hd).
    rewrite font_run_snoc in *. rewrite font_invoke_font.
    rewrite Hf, Hs, Hd. reflexivity. }
  split; [exact H |].
  intros f n d. rewrite H, !latest_snoc.
  destruct f, n, d; reflexivity.
Qed.

(** ** The rounded rectangle of radius 0 *)

(** C8.  With radius 0 the path that [drawRoundedRect] builds in stroke
    mode is the outline of the rectangle with corners [(x, y)],
    [(x + w, y)], [(x + w, y + h)] and [(x, y + h)]: one closed subpath whose
    four arcs each start and end at a corner, joined by straight edges,
    followed by the subpath that [closePath] opens at the first corner. *)
Theorem drawRoundedRect_zero_radius_is_rectangle
        (cos sin : Q -> Q) (p0 : list subpath)
        (x y w h : Q) (color : option color) (c : canvas) :
  exists sp,
    path_run cos sin p0
             (issued c (drawRoundedRect x y w h 0 color false c)) =
    Some [open_at (sp_first sp); sp] /\
    subpath_equiv sp (rectangle_outline x y w h).
Proof.
  rewrite drawRoundedRect_issued. unfold rounded_rect_path.
  cbn [app path_run path_step].
  change (Qle_bool 0 0) with true. cbv iota.
  unfold extend, close. cbn [sp_first sp_segments sp_closed app].
  match goal with
  | |- exists sp, Some [_; ?s] = _ /\ _ => exists s
  end.
  split; [reflexivity |].
  unfold subpath_equiv, rectangle_outline, arc_point, pt_eq.
  cbn [sp_first sp_segments sp_closed fst snd].
  split; [split; ring |].
  split; [| reflexivity].
  repeat (constructor; cbn [segment_equiv pt_eq fst snd]);
    unfold pt_eq; cbn [fst snd];
    repeat split; try reflexivity; ring.
Qed.

(** * Further properties of the methods *)

(** ** Paths built and paths kept *)

Lemma clear_issued (v : variant) (color : option color) (c : canvas) :
  issued c (clear v color c) =
  let w := px (getWidth c) in
  let h := px (getHeight c) in
  match v with
  | CanvasJs =>
      [FillRect 0 0 w h (effective (fillStyle (canvas_context c)) color)]
  | Part000 =>
      ClearRect 0 0 w h ::
      match color with
      | Some col =>
          if is_clear_literal col then [] else [FillRect 0 0 w h col]
      | None => []
      end
  end.
Proof.
  cbv zeta. unfold clear, getWidth, getHeight.
  destruct v, color as [col |]; try issued_calls.
  destruct (is_clear_literal col); issued_calls.
Qed.

Section PathsOfCalls.

Variables cos sin : Q -> Q.

(** X1.  [drawLine] builds, whatever path was current, one open subpath
    with a single straight segment between its two end points, each
    shifted by 0.5 in both coordinates when the position-fix flag is set
    and as passed when it is not, and paints it once, by stroking. *)
Theorem drawLine_path
        (p0 : list subpath) (x1 y1 x2 y2 : Q) (color : option color)
        (c : canvas) :
  let fix_ q := if usePositionFix c then q + 0.5 else q in
  let l := issued c (drawLine x1 y1 x2 y2 color c) in
  path_run cos sin p0 l =
  Some [mkSubpath (fix_ x1, fix_ y1) [LineSeg (fix_ x2, fix_ y2)] false] /\
  painted l =
  [(Stroking, effective (strokeStyle (canvas_context c)) color)].
Proof.
  cbv zeta. rewrite drawLine_issued. split; reflexivity.
Qed.

(** X2.  [drawRect], [drawText], [drawFill], [drawStroke] and [clear]
    leave the current path as it is: a shape built before them is still
    the one that a later [drawFill] or [drawStroke] paints. *)
Theorem painting_keeps_path
        (v : variant) (d : draw_call) (c : canvas) (p : list subpath) :
  paints_only d = true ->
  path_run cos sin p (issued c (invoke v d c)) = Some p.
Proof.
  intros Hd.
  destruct d as [x1 y1 x2 y2 color | x y w h color isFill
                 | x y w h r color isFill | x y r color isFill
                 | vertexes color isFill | x y text color isFill
                 | color | color | color];
    try discriminate Hd; cbn [invoke].
  - rewrite drawRect_issued. now destruct isFill.
  - rewrite drawText_issued. now destruct isFill.
  - now rewrite drawFill_issued.
  - now rewrite drawStroke_issued.
  - rewrite clear_issued. cbv zeta.
    destruct v; [reflexivity |].
    destruct color as [col |]; [| reflexivity].
    now destruct (is_clear_literal col).
Qed.

(** X3.  [drawLine], [drawRoundedRect], [drawCircle] and a [drawPolygon]
    that passes its guard begin a new path: what they build does not
    depend on the path that was current, which is discarded. *)
Theorem shape_begins_new_path
        (v : variant) (d : draw_call) (c : canvas) (p0 : list subpath) :
  builds_path d = true ->
  path_run cos sin p0 (issued c (invoke v d c)) =
  path_run cos sin [] (issued c (invoke v d c)).
Proof.
  intros Hd.
  destruct d as [x1 y1 x2 y2 color | x y w h color isFill
                 | x y w h r color isFill | x y r color isFill
                 | vertexes color isFill | x y text color isFill
                 | color | color | color];
    try discriminate Hd; cbn [invoke].
  - now rewrite drawLine_issued.
  - now rewrite drawRoundedRect_issued.
  - now rewrite drawCircle_issued.
  - destruct vertexes as [[| x0 [| y0 rest]] |]; try discriminate Hd.
    now rewrite drawPolygon_issued.
Qed.

(** X4.  [drawCircle] with a radius that is not negative builds one
    closed subpath made of a single arc about [(x, y)] as passed, from
    angle 0 to twice [Math.PI], in either mode and whatever the
    position-fix flag. *)
Theorem drawCircle_path
        (p0 : list subpath) (x y r : Q) (color : option color)
        (isFill : bool) (c : canvas) :
  0 <= r ->
  let first := arc_point cos sin x y r 0 in
  let last := arc_point cos sin x y r (Math_PI * 2) in
  path_run cos sin p0 (issued c (drawCircle x y r color isFill c)) =
  Some [open_at first;
        mkSubpath first [ArcSeg (x, y) r 0 (Math_PI * 2) last] true].
Proof.
  intros Hr. cbv zeta. rewrite drawCircle_issued.
  cbn [path_run path_step].
  apply Qle_bool_iff in Hr. rewrite Hr.
  destruct isFill; reflexivity.
Qed.

Lemma moveTos_flatten_odd (pts : list (Q * Q)) (x : Q) :
  moveTos (flatten pts ++ [x]) =
  moveTos (flatten pts) ++ [MoveTo (Num x) Undefined].
Proof.
  induction pts as [| pt pts IH]; simpl; [reflexivity |].
  now rewrite IH.
Qed.

Lemma path_run_skips_undefined (l1 l2 : list op) (x : Q) :
  forall p,
    path_run cos sin p (l1 ++ MoveTo (Num x) Undefined :: l2) =
    path_run cos sin p (l1 ++ l2).
Proof.
  intros p. rewrite !path_run_app.
  destruct (path_run cos sin p l1); reflexivity.
Qed.

(** X5.  A vertex list with an odd number of coordinates: the last
    coordinate is handed to [moveTo] with [undefined] for its partner,
    and the path built is the one of the list without it. *)
Theorem drawPolygon_odd_coordinate
        (p0 : list subpath) (pt : Q * Q) (pts : list (Q * Q)) (x : Q)
        (color : option color) (isFill : bool) (c : canvas) :
  let whole := issued c (drawPolygon (Some (flatten (pt :: pts) ++ [x]))
                                     color isFill c) in
  let paired := issued c (drawPolygon (Some (flatten (pt :: pts)))
                                      color isFill c) in
  In (MoveTo (Num x) Undefined) whole /\
  path_run cos sin p0 whole = path_run cos sin p0 paired.
Proof.
  cbv zeta.
  change (flatten (pt :: pts) ++ [x])
    with (fst pt :: snd pt :: (flatten pts ++ [x])).
  change (flatten (pt :: pts)) with (fst pt :: snd pt :: flatten pts).
  rewrite !drawPolygon_issued, moveTos_flatten_odd.
  split.
  - apply in_or_app. right. apply in_or_app. left.
    apply in_or_app. right. now left.
  - rewrite <- !app_assoc. cbn [app].
    exact (path_run_skips_undefined
             (BeginPath :: LineTo (Num (fst pt)) (Num (snd pt))
                        :: moveTos (flatten pts))
             [ClosePath; _] x p0).
Qed.

End PathsOfCalls.

Lemma painting_keeps_path_witness :
  let cos := fun _ : Q => 1 in
  let sin := fun _ : Q => 0 in
  let c := constructor 100 100 None in
  let p := [mkSubpath (0, 0) [LineSeg (10, 10)] false] in
  let red := ColorString "red" in
  path_run cos sin p (issued c (drawRect 1 2 3 4 (Some red) false c)) =
  Some p.
Proof.
  cbv zeta.
  apply (painting_keeps_path
           (fun _ => 1) (fun _ => 0) CanvasJs
           (DrawRect 1 2 3 4 (Some (ColorString "red")) false)).
  reflexivity.
Defined.

Lemma shape_begins_new_path_witness :
  let cos := fun _ : Q => 1 in
  let sin := fun _ : Q => 0 in
  let c := constructor 100 100 None in
  let p0 := [mkSubpath (0, 0) [LineSeg (10, 10)] false] in
  path_run cos sin p0 (issued c (drawCircle 5 5 2 None true c)) =
  path_run cos sin [] (issued c (drawCircle 5 5 2 None true c)).
Proof.
  cbv zeta.
  apply (shape_begins_new_path
           (fun _ => 1) (fun _ => 0) CanvasJs (DrawCircle 5 5 2 None true)).
  reflexivity.
Defined.

Lemma drawCircle_path_witness :
  let cos := fun _ : Q => 1 in
  let sin := fun _ : Q => 0 in
  let c := constructor 100 100 (Some true) in
  let first := arc_point cos sin 5 5 2 0 in
  let last := arc_point cos sin 5 5 2 (Math_PI * 2) in
  path_run cos sin [] (issued c (drawCircle 5 5 2 None false c)) =
  Some [open_at first;
        mkSubpath first [ArcSeg (5, 5) 2 0 (Math_PI * 2) last] true].
Proof.
  cbv zeta.
  apply (drawCircle_path
           (fun _ => 1) (fun _ => 0) [] 5 5 2 None false
           (constructor 100 100 (Some true))).
  unfold Qle. simpl. lia.
Defined.

(** ** The position fix *)

(** X6.  Where the source applies the position fix, setting the flag is
    the same as passing every position shifted by 0.5 to a wrapper whose
    flag is off: both end points of [drawLine], the origin of [drawRect]
    in stroke mode (its width and height stay as passed), and the origin
    of [drawText] in either mode. *)
Theorem position_fix_is_translation (c c' : canvas) :
  usePositionFix c = true ->
  usePositionFix c' = false ->
  canvas_context c = canvas_context c' ->
  (forall x1 y1 x2 y2 color,
      canvas_context (drawLine x1 y1 x2 y2 color c) =
      canvas_context
        (drawLine (x1 + 0.5) (y1 + 0.5) (x2 + 0.5) (y2 + 0.5) color c')) /\
  (forall x y w h color,
      canvas_context (drawRect x y w h color false c) =
      canvas_context (drawRect (x + 0.5) (y + 0.5) w h color false c')) /\
  (forall x y text color isFill,
      canvas_context (drawText x y text color isFill c) =
      canvas_context (drawText (x + 0.5) (y + 0.5) text color isFill c')).
Proof.
  intros Hon Hoff Hcx. repeat split; intros.
  - unfold drawLine, positionFix, on_context. cbn [canvas_context].
    now rewrite Hon, Hoff, Hcx.
  - unfold drawRect, positionFix, on_context. cbn [canvas_context].
    now rewrite Hon, Hoff, Hcx.
  - unfold drawText, positionFix, on_context. cbn [canvas_context].
    now rewrite Hon, Hoff, Hcx.
Qed.

Lemma position_fix_is_translation_witness :
  let c := constructor 100 100 None in
  let c' := constructor 100 100 (Some false) in
  canvas_context (drawLine 0 0 10 10 None c) =
  canvas_context (drawLine (0 + 0.5) (0 + 0.5) (10 + 0.5) (10 + 0.5) None c').
Proof.
  cbv zeta.
  apply (proj1 (position_fix_is_translation
                  (constructor 100 100 None)
                  (constructor 100 100 (Some false))
                  eq_refl eq_refl eq_refl)).
Defined.

(** X7.  Where the source applies no position fix, the flag makes no
    difference: circles and polygons in either mode, rectangles and
    rounded rectangles in fill mode, [drawFill], [drawStroke] and [clear]
    leave the same context on two wrappers that differ in the flag
    only. *)
Theorem position_fix_not_applied
        (v : variant) (d : draw_call) (c c' : canvas) :
  ignores_fix d = true ->
  canvas_context c = canvas_context c' ->
  canvas_element c = canvas_element c' ->
  canvas_context (invoke v d c) = canvas_context (invoke v d c').
Proof.
  intros Hd Hcx Hel.
  destruct d as [x1 y1 x2 y2 color | x y w h color isFill
                 | x y w h r color isFill | x y r color isFill
                 | vertexes color isFill | x y text color isFill
                 | color | color | color];
    try discriminate Hd; cbn [invoke ignores_fix] in *.
  - subst isFill. unfold drawRect, on_context. cbn [canvas_context].
    now rewrite Hcx.
  - subst isFill. unfold drawRoundedRect, on_context. cbn [canvas_context].
    now rewrite Hcx.
  - unfold drawCircle, on_context. cbn [canvas_context]. now rewrite Hcx.
  - unfold drawPolygon. destruct vertexes as [vs |]; [| exact Hcx].
    destruct (length vs <? 2)%nat; [exact Hcx |].
    unfold on_context. cbn [canvas_context]. now rewrite Hcx.
  - unfold drawFill, on_context. cbn [canvas_context]. now rewrite Hcx.
  - unfold drawStroke, on_context. cbn [canvas_context]. now rewrite Hcx.
  - unfold clear, on_context. destruct v; cbn [canvas_context];
      now rewrite Hcx, Hel.
Qed.

Lemma position_fix_not_applied_witness :
  let c := constructor 100 100 (Some true) in
  let c' := constructor 100 100 (Some false) in
  canvas_context (drawCircle 5 5 2 None false c) =
  canvas_context (drawCircle 5 5 2 None false c').
Proof.
  cbv zeta.
  apply (position_fix_not_applied
           CanvasJs (DrawCircle 5 5 2 None false)
           (constructor 100 100 (Some true))
           (constructor 100 100 (Some false)) eq_refl eq_refl eq_refl).
Defined.

(** ** Clearing as drawing *)

(** X8.  [clear] in terms of [drawRect].  In [Canvas.js] it is the
    filled rectangle over the whole surface.  In the module variant,
    with a colour other than the string [clear] it is [clear] without a
    colour followed by that filled rectangle, and with the string [clear]
    it is [clear] without a colour. *)
Theorem clear_as_drawRect (color : option color) (c : canvas) :
  let w := px (getWidth c) in
  let h := px (getHeight c) in
  clear CanvasJs color c = drawRect 0 0 w h color true c /\
  (forall col,
      col <> ColorString "clear" ->
      clear Part000 (Some col) c =
      drawRect 0 0 w h (Some col) true (clear Part000 None c)) /\
  clear Part000 (Some (ColorString "clear")) c = clear Part000 None c.
Proof.
  cbv zeta. split; [reflexivity | split; [| reflexivity]].
  intros col Hcol. unfold clear.
  rewrite (is_clear_literal_false col Hcol). reflexivity.
Qed.

Lemma clear_as_drawRect_witness :
  let c := constructor 300 150 None in
  let blue := ColorString "blue" in
  clear Part000 (Some blue) c =
  drawRect 0 0 (px 300) (px 150) (Some blue) true (clear Part000 None c).
Proof.
  cbv zeta.
  apply (proj1 (proj2 (clear_as_drawRect None (constructor 300 150 None)))).
  discriminate.
Defined.

(** ** The sticky stroke colour *)

Lemma stroking_is_not_clear (d : draw_call) :
  call_paint d = Stroking -> is_clear_call d = false.
Proof.
  destruct d; try reflexivity. discriminate.
Qed.

Lemma invoke_keeps_strokeStyle (v : variant) (d : draw_call) (c : canvas) :
  sets_strokeStyle d = false ->
  strokeStyle (canvas_context (invoke v d c)) =
  strokeStyle (canvas_context c).
Proof.
  intros Hd.
  destruct (turned_away d) eqn:Haway.
  { now rewrite invoke_turned_away. }
  destruct (is_clear_call d) eqn:Hclear.
  - destruct d as [| | | | | | | | color]; try discriminate Hclear.
    cbn [invoke]. unfold clear.
    destruct v, color as [col |]; try (ctx_read; reflexivity).
    destruct (is_clear_literal col); ctx_read; reflexivity.
  - destruct (invoke_styles v d c Hclear Haway) as [Hs Ho].
    unfold sets_strokeStyle in Hd. rewrite Haway in Hd.
    destruct (call_paint d); cbn [style_of other] in Hs, Ho.
    + exact Ho.
    + destruct (call_color d) as [col |]; [discriminate Hd | exact Hs].
Qed.

Lemma draw_run_keeps_strokeStyle (v : variant) (ds : list draw_call) :
  Forall (fun d => sets_strokeStyle d = false) ds ->
  forall c,
    strokeStyle (canvas_context (draw_run v ds c)) =
    strokeStyle (canvas_context c).
Proof.
  induction 1 as [| d ds Hd _ IH]; intros c; [reflexivity |].
  unfold draw_run in *. cbn [fold_left].
  rewrite IH. now apply invoke_keeps_strokeStyle.
Qed.

(** X9.  The stroke colour is sticky.  After a call in stroke mode that
    passes a colour, the stroke colour of the context is that colour; it
    stays so through any calls that assign no stroke colour, fills with
    other colours and [clear] among them, and a call in stroke mode with
    a [null] colour that comes after them strokes with it. *)
Theorem stroke_color_is_sticky
        (v : variant) (col : color) (d0 : draw_call)
        (between : list draw_call) (d : draw_call) (c : canvas) :
  call_paint d0 = Stroking ->
  call_color d0 = Some col ->
  turned_away d0 = false ->
  Forall (fun d' => sets_strokeStyle d' = false) between ->
  call_paint d = Stroking ->
  call_color d = None ->
  turned_away d = false ->
  let c1 := invoke v d0 c in
  let c2 := draw_run v between c1 in
  let c3 := invoke v d c2 in
  strokeStyle (canvas_context c1) = col /\
  strokeStyle (canvas_context c2) = col /\
  painted (issued c2 c3) = [(Stroking, col)] /\
  strokeStyle (canvas_context c3) = col.
Proof.
  intros Hp0 Hc0 Ha0 Hbetween Hp Hc Ha. cbv zeta.
  destruct (invoke_styles v d0 c (stroking_is_not_clear d0 Hp0) Ha0)
    as [H1 _].
  rewrite Hp0, Hc0 in H1. cbn [style_of effective] in H1.
  pose proof (draw_run_keeps_strokeStyle v between Hbetween (invoke v d0 c))
    as H2.
  rewrite H1 in H2.
  split; [exact H1 |]. split; [exact H2 |].
  pose proof (invoke_painted v d (draw_run v between (invoke v d0 c))
                (stroking_is_not_clear d Hp) Ha) as Hpaint.
  destruct (invoke_styles v d (draw_run v between (invoke v d0 c))
              (stroking_is_not_clear d Hp) Ha) as [Hs _].
  rewrite Hp, Hc in Hpaint, Hs. cbn [style_of effective] in Hpaint, Hs.
  rewrite H2 in Hpaint, Hs. auto.
Qed.

Lemma stroke_color_is_sticky_witness :
  let red := ColorString "red" in
  let blue := ColorString "blue" in
  let c1 := drawLine 0 0 10 10 (Some red) (constructor 100 100 None) in
  let c2 :=
    draw_run Part000
             [DrawRect 0 0 5 5 (Some blue) true; Clear (Some blue)] c1 in
  let c3 := drawCircle 5 5 2 None false c2 in
  strokeStyle (canvas_context c1) = red /\
  strokeStyle (canvas_context c2) = red /\
  painted (issued c2 c3) = [(Stroking, red)] /\
  strokeStyle (canvas_context c3) = red.
Proof.
  cbv zeta.
  apply (stroke_color_is_sticky
           Part000 (ColorString "red")
           (DrawLine 0 0 10 10 (Some (ColorString "red")))
           [DrawRect 0 0 5 5 (Some (ColorString "blue")) true;
            Clear (Some (ColorString "blue"))]
           (DrawCircle 5 5 2 None false)
           (constructor 100 100 None)).
  - reflexivity.
  - reflexivity.
  - reflexivity.
  - repeat constructor.
  - reflexivity.
  - reflexivity.
  - reflexivity.
Defined.

(** ** Laws of the font methods *)

Section FontLaws.

Variable Number_toString : Q -> string.

(** A font call is one assignment of the three fields: each field gets
    the value the call names, or keeps its own. *)
Lemma font_invoke_assign (v : variant) (k : font_call) (c : canvas) :
  font_invoke Number_toString v k c =
  font_assign v
    (match sets_decorations k with
     | Some d => d
     | None => fontDecorations c
     end)
    (match sets_size Number_toString k with
     | Some s => s
     | None => fontSize c
     end)
    (match sets_family k with Some f => f | None => fontFamily c end)
    c.
Proof.
  destruct k as [n | f | [d |] | [f |] [n |] [d |]]; reflexivity.
Qed.

(** A font call after an assignment is an assignment. *)
Lemma font_invoke_after_assign (v : variant) (k : font_call)
      (D : list string) (S F : string) (c : canvas) :
  font_invoke Number_toString v k (font_assign v D S F c) =
  font_assign v
    (match sets_decorations k with Some d => d | None => D end)
    (match sets_size Number_toString k with Some s => s | None => S end)
    (match sets_family k with Some f => f | None => F end)
    c.
Proof.
  destruct k as [n | f | [d |] | [f |] [n |] [d |]]; reflexivity.
Qed.

Lemma font_run_after_assign (v : variant) (ks : list font_call) :
  forall D S F c,
    font_run Number_toString v ks (font_assign v D S F c) =
    font_assign v
      (latest sets_decorations ks D)
      (latest (sets_size Number_toString) ks S)
      (latest sets_family ks F)
      c.
Proof.
  induction ks as [| k ks IH]; intros D S F c; [reflexivity |].
  unfold font_run in *. cbn [fold_left latest].
  rewrite font_invoke_after_assign. apply IH.
Qed.

(** X10.  Any sequence of at least one font call leaves the wrapper in
    the state that one assignment of the three fields, each with the
    value most recently set for it (or its value before the sequence),
    followed by one write of the font string, would leave: the whole
    state, so the calls before the last ones to set each field leave no
    trace. *)
Theorem font_run_is_one_assignment
        (v : variant) (k : font_call) (ks : list font_call) (c : canvas) :
  font_run Number_toString v (k :: ks) c =
  font_assign v
    (latest sets_decorations (k :: ks) (fontDecorations c))
    (latest (sets_size Number_toString) (k :: ks) (fontSize c))
    (latest sets_family (k :: ks) (fontFamily c))
    c.
Proof.
  unfold font_run. cbn [fold_left latest].
  rewrite font_invoke_assign.
  apply (font_run_after_assign v ks).
Qed.

(** X11.  Each font method is idempotent: the same call made twice in
    a row leaves the state of one call. *)
Theorem font_call_idempotent (v : variant) (k : font_call) (c : canvas) :
  font_invoke Number_toString v k (font_invoke Number_toString v k c) =
  font_invoke Number_toString v k c.
Proof.
  destruct k as [n | f | [d |] | [f |] [n |] [d |]]; reflexivity.
Qed.

(** X12.  [setFontFamily], [setFontSize] and [setFontDecorations]
    commute with one another: the order in which two different fields
    are set does not matter. *)
Theorem font_setters_commute
        (v : variant) (f : string) (n : Q) (d : option (list string))
        (c : canvas) :
  setFontSize Number_toString v n (setFontFamily v f c) =
  setFontFamily v f (setFontSize Number_toString v n c) /\
  setFontDecorations v d (setFontFamily v f c) =
  setFontFamily v f (setFontDecorations v d c) /\
  setFontDecorations v d (setFontSize Number_toString v n c) =
  setFontSize Number_toString v n (setFontDecorations v d c).
Proof.
  repeat split; reflexivity.
Qed.

(** X13.  [setFont] is the three setters in one: it equals writing the
    font string and then calling, for each argument that is not [null],
    the setter of that field.  With three [null] arguments it only writes
    the font string again. *)
Theorem setFont_is_three_setters
        (v : variant) (f : option string) (n : option Q)
        (d : option (list string)) (c : canvas) :
  setFont Number_toString v f n d c =
  let c0 := refreshFont v c in
  let c1 := match f with
            | Some f' => setFontFamily v f' c0
            | None => c0
            end in
  let c2 := match n with
            | Some n' => setFontSize Number_toString v n' c1
            | None => c1
            end in
  match d with
  | Some d' => setFontDecorations v (Some d') c2
  | None => c2
  end.
Proof.
  destruct f, n, d; reflexivity.
Qed.

End FontLaws.

(** ** Sequences of calls of any method *)

Lemma settings_log (o : op) (cx : context) :
  settings (Ctx.log o cx) = settings cx.
Proof. reflexivity. Qed.

Lemma settings_set_fillStyle (col : color) (cx : context) :
  settings (Ctx.set_fillStyle col cx) = settings cx.
Proof. reflexivity. Qed.

Lemma settings_set_strokeStyle (col : color) (cx : context) :
  settings (Ctx.set_strokeStyle col cx) = settings cx.
Proof. reflexivity. Qed.

Lemma settings_log_all (l : list op) (cx : context) :
  settings (log_all l cx) = settings cx.
Proof. reflexivity. Qed.

Create Rewrite HintDb settings.

#[local] Hint Rewrite
  settings_log settings_set_fillStyle settings_set_strokeStyle
  settings_log_all : settings.

Ltac settings_read := ctx_methods; autorewrite with settings; reflexivity.

(** No drawing method assigns the font, the alignment, the baseline or
    the line width of the context. *)
Lemma invoke_keeps_settings (v : variant) (d : draw_call) (c : canvas) :
  settings (canvas_context (invoke v d c)) = settings (canvas_context c).
Proof.
  destruct d as [x1 y1 x2 y2 color | x y w h color isFill
                 | x y w h r color isFill | x y r color isFill
                 | vertexes color isFill | x y text color isFill
                 | color | color | color];
    cbn [invoke].
  - unfold drawLine. destruct color; settings_read.
  - unfold drawRect. destruct isFill, color; settings_read.
  - unfold drawRoundedRect. destruct isFill, color; settings_read.
  - unfold drawCircle. destruct isFill, color; settings_read.
  - destruct vertexes as [[| x0 [| y0 rest]] |]; try reflexivity.
    rewrite drawPolygon_context.
    destruct isFill, color; settings_read.
  - unfold drawText. destruct isFill, color; settings_read.
  - unfold drawFill. destruct color; settings_read.
  - unfold drawStroke. destruct color; settings_read.
  - unfold clear. destruct v, color as [col |]; try settings_read.
    destruct (is_clear_literal col); settings_read.
Qed.

(** No drawing method assigns a field of the wrapper other than its
    context. *)
Lemma invoke_keeps_wrapper (v : variant) (d : draw_call) (c : canvas) :
  usePositionFix (invoke v d c) = usePositionFix c /\
  canvas_element (invoke v d c) = canvas_element c /\
  fontFamily (invoke v d c) = fontFamily c /\
  fontSize (invoke v d c) = fontSize c /\
  fontDecorations (invoke v d c) = fontDecorations c.
Proof.
  destruct d as [x1 y1 x2 y2 color | x y w h color isFill
                 | x y w h r color isFill | x y r color isFill
                 | vertexes color isFill | x y text color isFill
                 | color | color | color];
    cbn [invoke].
  - repeat split.
  - unfold drawRect. destruct isFill; repeat split.
  - unfold drawRoundedRect. destruct isFill; repeat split.
  - repeat split.
  - unfold drawPolygon. destruct vertexes as [vs |]; [| repeat split].
    destruct (length vs <? 2)%nat; repeat split.
  - repeat split.
  - repeat split.
  - repeat split.
  - destruct v; repeat split.
Qed.

Section MethodFacts.

Variable Number_toString : Q -> string.
Variable host_resize : element -> context -> context.

(** What every method of a sequence keeps, the sequence keeps. *)
Lemma method_run_keeps {A : Type} (read : canvas -> A) (v : variant)
      (P : method -> Prop) :
  (forall m c,
      P m ->
      read (method_invoke Number_toString host_resize v m c) = read c) ->
  forall ms,
    Forall P ms ->
    forall c,
      read (method_run Number_toString host_resize v ms c) = read c.
Proof.
  intros Hstep ms Hms.
  induction Hms as [| m ms Hm _ IH]; intros c; [reflexivity |].
  unfold method_run in *. cbn [fold_left].
  rewrite IH. now apply Hstep.
Qed.

(** X14.  The text alignment, the text baseline and the line width are
    whatever was last assigned: they are the same after any sequence of
    drawing and font calls as before it. *)
Theorem layout_survives_drawing
        (v : variant) (ms : list method) (c : canvas) :
  Forall (fun m => touches_layout m = false) ms ->
  let cx := canvas_context c in
  let cx' :=
    canvas_context (method_run Number_toString host_resize v ms c) in
  textAlign cx' = textAlign cx /\
  textBaseline cx' = textBaseline cx /\
  lineWidth cx' = lineWidth cx.
Proof.
  intros Hms. cbv zeta.
  pose proof (method_run_keeps
                (fun c0 => (textAlign (canvas_context c0),
                            textBaseline (canvas_context c0),
                            lineWidth (canvas_context c0)))
                v (fun m => touches_layout m = false)) as H.
  cbv beta in H.
  specialize (fun Hstep => H Hstep ms Hms c).
  assert (Hstep : forall m c0,
             touches_layout m = false ->
             (textAlign (canvas_context
                (method_invoke Number_toString host_resize v m c0)),
              textBaseline (canvas_context
                (method_invoke Number_toString host_resize v m c0)),
              lineWidth (canvas_context
                (method_invoke Number_toString host_resize v m c0))) =
             (textAlign (canvas_context c0),
              textBaseline (canvas_context c0),
              lineWidth (canvas_context c0))).
  { intros m c0 Hm.
    destruct m as [d | k | a | b | w | w h]; try discriminate Hm;
      cbn [method_invoke].
    - pose proof (invoke_keeps_settings v d c0) as Hd.
      unfold settings in Hd. now injection Hd as _ -> -> ->.
    - destruct k as [n | f | [d |] | [f |] [n |] [d |]]; reflexivity. }
  specialize (H Hstep). injection H as -> -> ->. auto.
Qed.

(** X15.  The font stays in force while drawing: after any sequence of
    drawing calls and of calls of the three other setters, the font of
    the context and the three font fields of the wrapper are what they
    were. *)
Theorem font_survives_drawing
        (v : variant) (ms : list method) (c : canvas) :
  Forall (fun m => touches_font m = false) ms ->
  let c' := method_run Number_toString host_resize v ms c in
  font (canvas_context c') = font (canvas_context c) /\
  fontFamily c' = fontFamily c /\
  fontSize c' = fontSize c /\
  fontDecorations c' = fontDecorations c.
Proof.
  intros Hms. cbv zeta.
  pose proof (method_run_keeps
                (fun c0 => (font (canvas_context c0), fontFamily c0,
                            fontSize c0, fontDecorations c0))
                v (fun m => touches_font m = false)) as H.
  cbv beta in H.
  specialize (fun Hstep => H Hstep ms Hms c).
  assert (Hstep : forall m c0,
             touches_font m = false ->
             (font (canvas_context
                (method_invoke Number_toString host_resize v m c0)),
              fontFamily (method_invoke Number_toString host_resize v m c0),
              fontSize (method_invoke Number_toString host_resize v m c0),
              fontDecorations
                (method_invoke Number_toString host_resize v m c0)) =
             (font (canvas_context c0), fontFamily c0, fontSize c0,
              fontDecorations c0)).
  { intros m c0 Hm.
    destruct m as [d | k | a | b | w | w h]; try discriminate Hm;
      cbn [method_invoke]; try reflexivity.
    pose proof (invoke_keeps_settings v d c0) as Hd.
    destruct (invoke_keeps_wrapper v d c0) as (_ & _ & -> & -> & ->).
    unfold settings in Hd. now injection Hd as -> _ _ _. }
  specialize (H Hstep). injection H as -> -> -> ->. auto.
Qed.

(** X16.  The font methods and the setters of the alignment, the
    baseline and the line width draw nothing: after any sequence of them
    the record of calls on the context is what it was, and so are the
    fill and stroke colours. *)
Theorem settings_draw_nothing
        (v : variant) (ms : list method) (c : canvas) :
  Forall (fun m => is_setting m = true) ms ->
  let c' := method_run Number_toString host_resize v ms c in
  issued c c' = [] /\
  calls (canvas_context c') = calls (canvas_context c) /\
  fillStyle (canvas_context c') = fillStyle (canvas_context c) /\
  strokeStyle (canvas_context c') = strokeStyle (canvas_context c).
Proof.
  intros Hms. cbv zeta.
  pose proof (method_run_keeps
                (fun c0 => (calls (canvas_context c0),
                            fillStyle (canvas_context c0),
                            strokeStyle (canvas_context c0)))
                v (fun m => is_setting m = true)) as H.
  cbv beta in H.
  specialize (fun Hstep => H Hstep ms Hms c).
  assert (Hstep : forall m c0,
             is_setting m = true ->
             (calls (canvas_context
                (method_invoke Number_toString host_resize v m c0)),
              fillStyle (canvas_context
                (method_invoke Number_toString host_resize v m c0)),
              strokeStyle (canvas_context
                (method_invoke Number_toString host_resize v m c0))) =
             (calls (canvas_context c0), fillStyle (canvas_context c0),
              strokeStyle (canvas_context c0))).
  { intros m c0 Hm.
    destruct m as [d | k | a | b | w | w h]; try discriminate Hm;
      cbn [method_invoke]; try reflexivity.
    destruct k as [n | f | [d |] | [f |] [n |] [d |]]; reflexivity. }
  specialize (H Hstep). injection H as Hc Hf Hs.
  repeat split; auto.
  apply issued_app. rewrite Hc. now rewrite app_nil_r.
Qed.

(** X17.  The position-fix flag is decided at construction: no sequence
    of calls of any method changes it. *)
Theorem usePositionFix_is_constant
        (v : variant) (ms : list method) (c : canvas) :
  usePositionFix (method_run Number_toString host_resize v ms c) =
  usePositionFix c.
Proof.
  apply (method_run_keeps usePositionFix v (fun _ => True)).
  - intros m c0 _.
    destruct m as [d | k | a | b | w | w h]; cbn [method_invoke];
      try reflexivity.
    + apply invoke_keeps_wrapper.
    + destruct k as [n | f | [d |] | [f |] [n |] [d |]]; reflexivity.
  - apply Forall_forall. auto.
Qed.

(** The size of the surface after a sequence of calls. *)
Lemma method_run_size (v : variant) (ms : list method) :
  forall c,
    (getWidth (method_run Number_toString host_resize v ms c),
     getHeight (method_run Number_toString host_resize v ms c)) =
    latest_size ms (getWidth c, getHeight c).
Proof.
  induction ms as [| m ms IH]; intros c; [reflexivity |].
  unfold method_run in *. cbn [fold_left latest_size].
  rewrite IH. f_equal.
  destruct m as [d | k | a | b | w | w h]; cbn [method_invoke];
    try reflexivity.
  - unfold getWidth, getHeight.
    now destruct (invoke_keeps_wrapper v d c) as (_ & -> & _).
  - destruct k as [n | f | [d |] | [f |] [n |] [d |]]; reflexivity.
Qed.

(** X18.  [getWidth] and [getHeight] return the dimensions given to the
    last [setSize], or those given to the constructor when there has been
    none, whatever other methods were called. *)
Theorem size_is_latest_setSize
        (v : variant) (w h : N) (options : option bool)
        (ms : list method) :
  let c := method_run Number_toString host_resize v ms
                      (constructor w h options) in
  (getWidth c, getHeight c) = latest_size ms (w, h).
Proof.
  cbv zeta. apply (method_run_size v ms (constructor w h options)).
Qed.

(** X19.  [clear] covers the surface as last resized: after any sequence
    of calls, every call it makes on the context is a rectangle from
    (0, 0) with the dimensions given by the last [setSize] (or the
    constructor), and it makes at least one. *)
Theorem clear_covers_current_size
        (v : variant) (w h : N) (options : option bool)
        (ms : list method) (color : option color) :
  let c := method_run Number_toString host_resize v ms
                      (constructor w h options) in
  let l := issued c (clear v color c) in
  Forall (covers (fst (latest_size ms (w, h))) (snd (latest_size ms (w, h))))
         l /\
  l <> [].
Proof.
  cbv zeta. rewrite clear_issued. cbv zeta.
  pose proof (method_run_size v ms (constructor w h options)) as Hsize.
  change (getWidth (constructor w h options)) with w in Hsize.
  change (getHeight (constructor w h options)) with h in Hsize.
  rewrite <- Hsize. cbn [fst snd].
  destruct v; [split; [repeat constructor | discriminate] |].
  destruct color as [col |];
    [destruct (is_clear_literal col) |];
    (split; [repeat constructor | discriminate]).
Qed.

End MethodFacts.

Lemma layout_survives_drawing_witness :
  let toString := fun _ : Q => "12" in
  let host := fun (_ : element) (cx : context) => cx in
  let c := setTextAlign "center" (constructor 100 100 None) in
  let ms := [Draw (DrawLine 0 0 10 10 None); Font (SetFontSize 12);
             Draw (DrawText 0 0 "a" None true)] in
  let cx' := canvas_context (method_run toString host CanvasJs ms c) in
  textAlign cx' = "center" /\
  textBaseline cx' = "top" /\
  lineWidth cx' = 1.
Proof.
  cbv zeta.
  apply (layout_survives_drawing
           (fun _ => "12") (fun _ cx => cx) CanvasJs
           [Draw (DrawLine 0 0 10 10 None); Font (SetFontSize 12);
            Draw (DrawText 0 0 "a" None true)]
           (setTextAlign "center" (constructor 100 100 None))).
  repeat constructor.
Defined.

Lemma font_survives_drawing_witness :
  let toString := fun _ : Q => "12" in
  let host := fun (_ : element) (cx : context) => cx in
  let c := setFontSize toString Part000 12 (constructor 100 100 None) in
  let ms := [Draw (DrawText 0 0 "a" None true); SetTextAlign "center";
             Draw (Clear None)] in
  let c' := method_run toString host Part000 ms c in
  font (canvas_context c') = font (canvas_context c) /\
  fontFamily c' = fontFamily c /\
  fontSize c' = fontSize c /\
  fontDecorations c' = fontDecorations c.
Proof.
  cbv zeta.
  apply (font_survives_drawing
           (fun _ => "12") (fun _ cx => cx) Part000
           [Draw (DrawText 0 0 "a" None true); SetTextAlign "center";
            Draw (Clear None)]
           (setFontSize (fun _ => "12") Part000 12
                        (constructor 100 100 None))).
  repeat constructor.
Defined.

Lemma settings_draw_nothing_witness :
  let toString := fun _ : Q => "12" in
  let host := fun (_ : element) (cx : context) => cx in
  let c := drawLine 0 0 10 10 (Some (ColorString "red"))
                    (constructor 100 100 None) in
  let ms := [Font (SetFont (Some "serif") (Some 12) None);
             SetLineWidth 2; SetTextBaseline "middle"] in
  let c' := method_run toString host CanvasJs ms c in
  issued c c' = [] /\
  calls (canvas_context c') = calls (canvas_context c) /\
  fillStyle (canvas_context c') = fillStyle (canvas_context c) /\
  strokeStyle (canvas_context c') = strokeStyle (canvas_context c).
Proof.
  cbv zeta.
  apply (settings_draw_nothing
           (fun _ => "12") (fun _ cx => cx) CanvasJs
           [Font (SetFont (Some "serif") (Some 12) None);
            SetLineWidth 2; SetTextBaseline "middle"]
           (drawLine 0 0 10 10 (Some (ColorString "red"))
                     (constructor 100 100 None))).
  repeat constructor.
Defined.
